(** * Message-retention scheduler of discord-irc: [lib/purge.js] and the Watcher

    A shallow embedding of the two classes [Purge] and [Watcher] and the
    properties of their queue handling.

    Modelling conventions.
    - JavaScript arrays are lists; [Array.prototype.filter], [findIndex],
      [splice], [push], indexing and [sort] are given below with the results
      ECMAScript prescribes.
    - A [Date] is its millisecond time value, an integer ([Z]); message ids
      are strings (discord snowflakes), compared with [===].
    - A JavaScript number that takes part in arithmetic
      ([config.purgeTimerInterval], the delay given to [setTimeout]) is an
      IEEE 754 binary64 value, a primitive [float], with the rounding,
      infinities and NaN of the language; counters, lengths and
      [purgeCountPerRound] are integers.
    - Methods that mutate [this] take the object and return the new one. *)

From Stdlib Require Import ZArith List Ascii String Bool Lia Permutation Sorted.
From Stdlib Require Import PrimFloat SpecFloat FloatOps.
Import ListNotations.

Local Open Scope Z_scope.

(** ** JavaScript array primitives *)

Section JsArray.
Context {A : Type}.

(** [arr.findIndex(f)]: index of the first element satisfying [f], or -1. *)
Fixpoint findIndex (f : A -> bool) (arr : list A) : Z :=
  match arr with
  | [] => -1
  | x :: rest =>
      if f x then 0
      else let k := findIndex f rest in
           if k =? -1 then -1 else k + 1
  end.

(** [arr.splice(index, 1)] for a non-negative [index]: the array without
    the element at [index]. *)
Definition splice1 (index : Z) (arr : list A) : list A :=
  firstn (Z.to_nat index) arr ++ skipn (S (Z.to_nat index)) arr.

(** [arr.push(x)]. *)
Definition push (arr : list A) (x : A) : list A := arr ++ [x].

(** [arr[i]]: [None] stands for [undefined]. *)
Definition elem_at (arr : list A) (i : nat) : option A := nth_error arr i.

(** The list without its first element satisfying [f]. *)
Fixpoint drop_first (f : A -> bool) (arr : list A) : list A :=
  match arr with
  | [] => []
  | x :: rest => if f x then rest else x :: drop_first f rest
  end.
End JsArray.

(** ** Data of [purge.js] *)

(** A discord message, as far as the scheduler reads it. *)
Record Message := mkMessage {
  id : string;
  createdAt : Z;
  content : string;
  channel : string
}.

(** An element of [messageQueue] and of [sas]: [{ dueDate, message }]. *)
Record QueueEntry := mkEntry {
  dueDate : Z;
  message : Message
}.

Record Stats := mkStats {
  itemsDeleted : Z;
  itemsDeletedCalled : Z;
  errors : Z
}.

(** [messageLifeTime]: every field may be absent. *)
Record LifeTime := mkLifeTime {
  days : option Z;
  hours : option Z;
  minutes : option Z;
  seconds : option Z
}.

(** The number an integer denotes: the binary64 value nearest to it. *)
Definition number_of_Z (z : Z) : float :=
  SF2Prim (binary_normalize prec emax z 0 false).

(** The [purge] section of the bot configuration. *)
Record Config := mkConfig {
  purgeTimerInterval : float;
  watcherInterval : float;
  purgeCountPerRound : Z;
  messageLifeTime : option LifeTime
}.

Record Purge := mkPurge {
  config : Config;
  messageQueue : list QueueEntry;
  sas : list QueueEntry;
  stats : Stats
}.

(** [new Purge(config)]. *)
Definition constructor (cfg : Config) : Purge :=
  mkPurge cfg [] [] (mkStats 0 0 0).

Definition mid (t : QueueEntry) : string := id (message t).

Definition same_id (a : string) (t : QueueEntry) : bool :=
  String.eqb (id (message t)) a.

(** ** [Array.prototype.sort] with the comparator
    [(left, right) => left.dueDate - right.dueDate] *)

Fixpoint insert_by_dueDate (t : QueueEntry) (arr : list QueueEntry) : list QueueEntry :=
  match arr with
  | [] => [t]
  | u :: rest =>
      if dueDate t - dueDate u <=? 0 then t :: u :: rest
      else u :: insert_by_dueDate t rest
  end.

(** A stable sort, ascending in [dueDate]. *)
Fixpoint sort_by_dueDate (arr : list QueueEntry) : list QueueEntry :=
  match arr with
  | [] => []
  | t :: rest => insert_by_dueDate t (sort_by_dueDate rest)
  end.

(** ** Methods of [Purge] *)

Definition set_interval (q : float) (cfg : Config) : Config :=
  mkConfig q (watcherInterval cfg) (purgeCountPerRound cfg) (messageLifeTime cfg).

(** The array the loop of [purgeTimerWatch] indexes: the queue without the
    entries whose id is in [sas], without those not yet due, sorted. *)
Definition due_candidates (now : Z) (p : Purge) : list QueueEntry :=
  sort_by_dueDate
    (filter (fun t => dueDate t <? now)
       (filter (fun t => findIndex (fun s => String.eqb (id (message s)) (id (message t))) (sas p) =? -1)
          (messageQueue p))).

(** One round of the [for] loop, at index [i]: the delete is issued (second
    component) and the entry is pushed on [sas]. *)
Definition purge_round (now : Z) (i : nat) (p : Purge) : Purge * list QueueEntry :=
  match elem_at (due_candidates now p) i with
  | Some tuple =>
      (mkPurge (config p) (messageQueue p) (push (sas p) tuple)
         (mkStats (itemsDeleted (stats p)) (itemsDeletedCalled (stats p) + 1) (errors (stats p))),
       [tuple])
  | None => (p, [])
  end.

(** [for (i = i0; i < i0 + n; i += 1)]. *)
Fixpoint purge_loop (now : Z) (n : nat) (i : nat) (p : Purge) : Purge * list QueueEntry :=
  match n with
  | O => (p, [])
  | S n' =>
      let '(p1, d1) := purge_round now i p in
      let '(p2, d2) := purge_loop now n' (S i) p1 in
      (p2, d1 ++ d2)
  end.

(** What one call of [purgeTimerWatch] produces: the object afterwards, the
    entries whose [message.delete()] was called, in order, and the delay
    handed to [setTimeout] by [continue]. *)
Record TickResult := mkTick {
  after : Purge;
  issued : list QueueEntry;
  timeout : float
}.

(** [this.sas.length / this.config.purgeCountPerRound]. *)
Definition backlog_ratio (p : Purge) : float :=
  (number_of_Z (Z.of_nat (List.length (sas p)))
   / number_of_Z (purgeCountPerRound (config p)))%float.

Definition purgeTimerWatch (now : Z) (p : Purge) : TickResult :=
  if (0 <? Z.of_nat (List.length (sas p))) then
    let interval := purgeTimerInterval (config p) in
    let cfg := set_interval (interval + interval * backlog_ratio p)%float (config p) in
    mkTick (mkPurge cfg (messageQueue p) (sas p) (stats p)) [] (backlog_ratio p)
  else
    let '(p', ds) := purge_loop now (Z.to_nat (purgeCountPerRound (config p))) 0 p in
    mkTick p' ds (purgeTimerInterval (config p')).

Definition remove_by_id (a : string) (arr : list QueueEntry) : list QueueEntry :=
  let index := findIndex (same_id a) arr in
  if negb (index =? -1) then splice1 index arr else arr.

Definition removeFromStores (tuple : QueueEntry) (p : Purge) : Purge :=
  mkPurge (config p)
    (remove_by_id (id (message tuple)) (messageQueue p))
    (remove_by_id (id (message tuple)) (sas p))
    (stats p).

(** The two callbacks given to [tuple.message.delete().then]. *)
Definition delete_fulfilled (tuple : QueueEntry) (p : Purge) : Purge :=
  removeFromStores tuple
    (mkPurge (config p) (messageQueue p) (sas p)
       (mkStats (itemsDeleted (stats p) + 1) (itemsDeletedCalled (stats p)) (errors (stats p)))).

Definition delete_rejected (tuple : QueueEntry) (p : Purge) : Purge :=
  removeFromStores tuple
    (mkPurge (config p) (messageQueue p) (sas p)
       (mkStats (itemsDeleted (stats p)) (itemsDeletedCalled (stats p)) (errors (stats p) + 1))).

(** [getOldestMessageInQueue]: [sort] works in place, so the queue of the
    object is the sorted one afterwards; [None] stands for [null]. *)
Definition getOldestMessageInQueue (p : Purge) : option Message * Purge :=
  let sorted := sort_by_dueDate (messageQueue p) in
  let p' := mkPurge (config p) sorted (sas p) (stats p) in
  match elem_at sorted 0 with
  | None => (None, p')
  | Some tuple => (Some (message tuple), p')
  end.

Definition addMessage (msg : Message) (due : Z) (p : Purge) : Purge :=
  if findIndex (same_id (id msg)) (messageQueue p) =? -1 then
    mkPurge (config p) (push (messageQueue p) (mkEntry due msg)) (sas p) (stats p)
  else p.

(** ** The scheduler with its outstanding deletes

    [message.delete()] returns a promise; the callback of its settlement
    runs in a later turn, once. [deleting] lists the entries whose promise
    has not settled yet. *)

Record World := mkWorld {
  purger : Purge;
  deleting : list QueueEntry
}.

Inductive Event :=
| Tick (now : Z)                    (* the timer calls [purgeTimerWatch] *)
| Settle (ok : bool) (n : nat)      (* the [n]-th outstanding delete settles *)
| Submit (msg : Message) (due : Z)  (* [addMessage] *)
| Oldest.                           (* [getOldestMessageInQueue] *)

Definition step (ev : Event) (w : World) : option World :=
  match ev with
  | Tick now =>
      let r := purgeTimerWatch now (purger w) in
      Some (mkWorld (after r) (deleting w ++ issued r))
  | Settle ok n =>
      match elem_at (deleting w) n with
      | Some tuple =>
          Some (mkWorld
                  ((if ok then delete_fulfilled else delete_rejected) tuple (purger w))
                  (firstn n (deleting w) ++ skipn (S n) (deleting w)))
      | None => None
      end
  | Submit msg due => Some (mkWorld (addMessage msg due (purger w)) (deleting w))
  | Oldest => Some (mkWorld (snd (getOldestMessageInQueue (purger w))) (deleting w))
  end.

Fixpoint run (evs : list Event) (w : World) : option World :=
  match evs with
  | [] => Some w
  | ev :: rest =>
      match step ev w with
      | Some w' => run rest w'
      | None => None
      end
  end.

Definition initial (cfg : Config) : World := mkWorld (constructor cfg) [].

Inductive reachable (cfg : Config) : World -> Prop :=
| reachable_initial : reachable cfg (initial cfg)
| reachable_step : forall ev w w',
    reachable cfg w -> step ev w = Some w' -> reachable cfg w'.

(** ** The Watcher *)

(** What a lookup evaluates to. *)
Inductive JsRef (A : Type) : Type :=
| JsNull
| JsUndefined
| JsObj (a : A).
Arguments JsNull {A}.
Arguments JsUndefined {A}.
Arguments JsObj {A} a.

Record Channel := mkChannel {
  chan_id : string;
  name : string;
  type : string
}.

(** [discord.channels]: a discord.js [Collection], which extends the
    ECMAScript [Map]; the channels by id, in insertion order. *)
Definition Collection := list (string * Channel).

(** [Map.prototype.get(key)]: [undefined] when the key is absent. *)
Definition Map_get (key : string) (c : Collection) : JsRef Channel :=
  match find (fun kv => String.eqb (fst kv) key) c with
  | Some kv => JsObj (snd kv)
  | None => JsUndefined
  end.

(** [Collection.filter(fn)]. *)
Definition Collection_filter (fn : Channel -> bool) (c : Collection) : Collection :=
  filter (fun kv => fn (snd kv)) c.

(** [Collection.find('name', value)] of discord.js 11 (the version with
    [fetchMessages]): the first item whose [name] is [value], and [null]
    when there is none. *)
Definition Collection_find_name (value : string) (c : Collection) : JsRef Channel :=
  match find (fun kv => String.eqb (name (snd kv)) value) c with
  | Some kv => JsObj (snd kv)
  | None => JsNull
  end.

(** The arguments of [new Watcher(purger, discordClient, config,
    channelMappings)]; the purger is passed to the methods that use it. *)
Record Watcher := mkWatcher {
  discord_channels : Collection;
  wconfig : Config;
  mappings : list (string * string)
}.

(** The fields [start] assigns. *)
Record Started := mkStarted {
  chans : list (JsRef Channel);
  lifeTimeOffset : Z
}.

(** [lt.field ? lt.field : 0]. *)
Definition or_zero (field : option Z) : Z :=
  match field with
  | Some v => if v =? 0 then 0 else v
  | None => 0
  end.

(** [static getLifeTimeOffset(lt = { })]; [None] is an absent argument. *)
Definition getLifeTimeOffset (arg : option LifeTime) : Z :=
  let lt := match arg with
            | Some lt => lt
            | None => mkLifeTime None None None None
            end in
  let seconds0 := 0 in
  let seconds1 := seconds0 + or_zero (days lt) * 24 * 60 * 60 in
  let seconds2 := seconds1 + or_zero (hours lt) * 60 * 60 in
  let seconds3 := seconds2 + or_zero (minutes lt) * 60 in
  let seconds4 := seconds3 + or_zero (seconds lt) in
  seconds4 * 1000.

(** The function mapped over [Object.values(this.mappings)]. *)
Definition resolve (channels : Collection) (m : string) : JsRef Channel :=
  match m with
  | String "#"%char rest =>
      Collection_find_name rest
        (Collection_filter (fun c => String.eqb (type c) "text") channels)
  | _ => Map_get m channels
  end.

(** [c !== null]. *)
Definition not_null {A : Type} (c : JsRef A) : bool :=
  match c with
  | JsNull => false
  | _ => true
  end.

Definition start (w : Watcher) : Started :=
  mkStarted
    (filter not_null (map (resolve (discord_channels w)) (map snd (mappings w))))
    (getLifeTimeOffset (messageLifeTime (wconfig w))).

(** The argument of [fetchMessages]: [before] may be absent. *)
Record FetchParams := mkFetchParams {
  before : option string;
  limit : Z
}.

Definition fetchParams (p : Purge) : FetchParams * Purge :=
  let '(oldest, p') := getOldestMessageInQueue p in
  match oldest with
  | None => (mkFetchParams None 50, p')
  | Some msg => (mkFetchParams (Some (id msg)) 50, p')
  end.

(** What [watcherTicker] does: the [fetchMessages] calls made, in order, and
    whether the [forEach] ended with a TypeError: reading [fetchMessages]
    from [null] or [undefined] throws before [fetchParams] is evaluated. *)
Record Poll := mkPoll {
  polled : Purge;
  requests : list (Channel * FetchParams);
  threw : bool
}.

Fixpoint watcherTicker_from (cs : list (JsRef Channel)) (p : Purge) : Poll :=
  match cs with
  | [] => mkPoll p [] false
  | JsObj chan :: rest =>
      let '(params, p1) := fetchParams p in
      let r := watcherTicker_from rest p1 in
      mkPoll (polled r) ((chan, params) :: requests r) (threw r)
  | _ :: _ => mkPoll p [] true
  end.

Definition watcherTicker (s : Started) (p : Purge) : Poll :=
  watcherTicker_from (chans s) p.

Definition sendToPurge (s : Started) (msg : Message) (p : Purge) : Purge :=
  let date := createdAt msg + lifeTimeOffset s in
  addMessage msg date p.

(** The callback of a fulfilled [fetchMessages]. *)
Definition fetched (s : Started) (messages : list Message) (p : Purge) : Purge :=
  fold_left (fun q msg => sendToPurge s msg q) messages p.

(** ** Vocabulary of the statements *)

(** The order the sort establishes. *)
Definition due_le (a b : QueueEntry) : Prop := dueDate a <= dueDate b.

(** What a run of the loop from [p] to [p'] that issued [ds] changes. *)
Record issues (now : Z) (p p' : Purge) (ds : list QueueEntry) : Prop := {
  issues_config : config p' = config p;
  issues_queue : messageQueue p' = messageQueue p;
  issues_sas : sas p' = sas p ++ ds;
  issues_called :
    itemsDeletedCalled (stats p') = itemsDeletedCalled (stats p) + Z.of_nat (List.length ds);
  issues_deleted : itemsDeleted (stats p') = itemsDeleted (stats p);
  issues_errors : errors (stats p') = errors (stats p);
  issues_due : forall t, In t ds ->
    In t (messageQueue p) /\ dueDate t < now /\ ~ In (mid t) (map mid (sas p));
  issues_NoDup : NoDup (map mid (sas p)) -> NoDup (map mid (sas p'))
}.

(** One entry per id in the queue and in [sas]; [sas] within the queue;
    the outstanding deletes are the entries of [sas]; and the attempts are
    the settled deletes plus those in flight. *)
Record invariant (w : World) : Prop := {
  inv_queue : NoDup (map mid (messageQueue (purger w)));
  inv_sas : NoDup (map mid (sas (purger w)));
  inv_within : incl (sas (purger w)) (messageQueue (purger w));
  inv_deleting : Permutation (deleting w) (sas (purger w));
  inv_count :
    itemsDeletedCalled (stats (purger w)) =
    itemsDeleted (stats (purger w)) + errors (stats (purger w))
    + Z.of_nat (List.length (sas (purger w)))
}.

(** The entries whose delete is issued, and those whose completion callback
    runs, along a sequence of events. *)
Fixpoint issued_along (evs : list Event) (w : World) : list QueueEntry :=
  match evs with
  | [] => []
  | ev :: rest =>
      match ev with
      | Tick now => issued (purgeTimerWatch now (purger w))
      | _ => []
      end
      ++ match step ev w with
         | Some w' => issued_along rest w'
         | None => []
         end
  end.

Fixpoint settled_along (evs : list Event) (w : World) : list QueueEntry :=
  match evs with
  | [] => []
  | ev :: rest =>
      match ev with
      | Settle _ n => match elem_at (deleting w) n with
                      | Some tuple => [tuple]
                      | None => []
                      end
      | _ => []
      end
      ++ match step ev w with
         | Some w' => settled_along rest w'
         | None => []
         end
  end.

Fixpoint submitted_along (evs : list Event) : list string :=
  match evs with
  | [] => []
  | Submit msg _ :: rest => id msg :: submitted_along rest
  | _ :: rest => submitted_along rest
  end.

(** A run on which the statements are instantiated. *)
Definition demo_config : Config :=
  mkConfig 10000%float 5000%float 2 (Some (mkLifeTime None None (Some 1) None)).

Definition demo_message (a : string) (created : Z) : Message :=
  mkMessage a created "hello" "general".

(** Three messages are submitted, and the tick at 100000 issues deletes. *)
Definition demo_events : list Event :=
  [ Submit (demo_message "m1" 1000) 61000;
    Submit (demo_message "m2" 2000) 62000;
    Submit (demo_message "m3" 3000) 63000;
    Tick 100000 ].

Definition demo_world : World :=
  match run demo_events (initial demo_config) with
  | Some w => w
  | None => initial demo_config
  end.




(** [t] is an entry of [queue] that no entry precedes in due date. *)
Definition earliest (queue : list QueueEntry) (t : QueueEntry) : Prop :=
  In t queue /\ forall u, In u queue -> dueDate t <= dueDate u.

(** What [fetchParams] must be for a queue. *)
Definition cursor_for (queue : list QueueEntry) (params : FetchParams) : Prop :=
  limit params = 50
  /\ (queue = [] -> before params = None)
  /\ (queue <> [] -> exists t, earliest queue t /\ before params = Some (id (message t))).

(** An unset field counts 0. *)
Definition field (f : option Z) : Z :=
  match f with
  | Some v => v
  | None => 0
  end.

(** Settles the comparisons of a symbolic run of the loop. *)
Ltac decide_tests :=
  repeat (match goal with
          | |- context [Z.ltb ?a ?b] => destruct (Z.ltb_spec a b); [|lia]
          | |- context [Z.leb ?a ?b] => destruct (Z.leb_spec a b); try lia
          | |- context [String.eqb ?a ?b] =>
              destruct (String.eqb_spec a b); try congruence
          end; simpl).

(** One text channel; the third reference has no leading [#] and no channel. *)
Definition demo_watcher : Watcher :=
  mkWatcher [("100"%string, mkChannel "100" "general" "text")] demo_config
            [("#general", "#general"); ("#staff", "#staff"); ("200", "&ops")]%string.

(** ** The rest of the scheduler's vocabulary *)

(** The elements at positions 0, 2, 4, ... *)
Fixpoint evens {A : Type} (l : list A) : list A :=
  match l with
  | [] => []
  | [x] => [x]
  | x :: _ :: rest => x :: evens rest
  end.

(** The callback of a settled delete. *)
Definition settle (ok : bool) (tuple : QueueEntry) (p : Purge) : Purge :=
  (if ok then delete_fulfilled else delete_rejected) tuple p.

(** One backoff of the interval [x] by the ratio [r]: [x += x * r]. *)
Definition backoff (r : float) (x : float) : float := (x + x * r)%float.


(** ** Parts of the bridge, [class Bot] *)

(** A guild member, as [getIrcName] and [createIrcConnections] read it:
    [displayName], [user.username], [user.id], [user.bot] and
    [presence.status]. *)
Record GuildMember := mkGuildMember {
  displayName : string;
  username : string;
  user_id : string;
  bot : bool;
  status : string
}.

(** The suffix [getIrcName] chooses for a presence status. *)
Definition presence_suffix (st : string) : string :=
  if String.eqb st "offline" then "_off"
  else if String.eqb st "idle" then "_aw"
  else if String.eqb st "dnd" then "_dnd"
  else "".

(** [static getIrcName(guildMember)]; the empty string is falsy in
    [guildMember.displayName || guildMember.user.username]. *)
Definition getIrcName (guildMember : GuildMember) : string :=
  let name := if String.eqb (displayName guildMember) "" then username guildMember
              else displayName guildMember in
  let suffix := presence_suffix (status guildMember) in
  (name ++ suffix)%string.

(** [message[0]]: the first character as a string, [None] for [undefined]. *)
Definition char_at_0 (message : string) : option string :=
  match message with
  | EmptyString => None
  | String c _ => Some (String c EmptyString)
  end.

(** [arr.indexOf(x)] on an array of strings, with strict equality. *)
Definition indexOf (arr : list string) (x : option string) : Z :=
  findIndex (fun c => match x with
                      | Some s => String.eqb c s
                      | None => false
                      end) arr.

(** [isCommandMessage(message)]. *)
Definition isCommandMessage (commandCharacters : list string) (message : string) : bool :=
  negb (indexOf commandCharacters (char_at_0 message) =? -1).

Definition NICK_COLORS : list string :=
  ["light_blue"; "dark_blue"; "light_red"; "dark_red"; "light_green";
   "dark_green"; "magenta"; "light_magenta"; "orange"; "yellow"; "cyan"; "light_cyan"]%string.

(** [(nickname.charCodeAt(0) + nickname.length) % NICK_COLORS.length] of
    [sendToIRC], a character standing for one code unit; [None] is the [NaN]
    of an empty nickname. *)
Definition colorIndex (nickname : string) : option Z :=
  match nickname with
  | EmptyString => None
  | String c _ =>
      Some ((Z.of_nat (nat_of_ascii c) + Z.of_nat (String.length nickname))
            mod Z.of_nat (List.length NICK_COLORS))
  end.

(** The properties every plain object inherits from [Object.prototype];
    their values are functions, or the prototype itself for [__proto__]. *)
Definition Object_prototype_names : list string :=
  ["constructor"; "__defineGetter__"; "__defineSetter__"; "hasOwnProperty";
   "__lookupGetter__"; "__lookupSetter__"; "isPrototypeOf"; "propertyIsEnumerable";
   "toString"; "valueOf"; "__proto__"; "toLocaleString"]%string.

(** What [object[key]] finds on a plain object: the value of an own
    property, an inherited property of [Object.prototype], or nothing
    ([undefined]). *)
Inductive Property (A : Type) : Type :=
| Own (a : A)
| Inherited
| Missing.
Arguments Own {A} a.
Arguments Inherited {A}.
Arguments Missing {A}.

(** [object[key]], the own properties of the object being listed in [object]. *)
Definition get_property {A : Type} (object : list (string * A)) (key : string) : Property A :=
  match find (fun kv => String.eqb (fst kv) key) object with
  | Some kv => Own (snd kv)
  | None => if existsb (String.eqb key) Object_prototype_names then Inherited else Missing
  end.

(** How a call ends: with a value, or with a TypeError thrown. *)
Inductive Completion (A : Type) : Type :=
| Return (a : A)
| TypeError.
Arguments Return {A} a.
Arguments TypeError {A}.

(** [findDiscordChannel(ircChannel)], given [String.prototype.toLowerCase]:
    the lookup is the one of [Watcher.start], and [!discordChannel] sends
    [null] and [undefined] alike to [null]. An inherited property is truthy
    and has no [startsWith], so calling it throws. *)
Definition findDiscordChannel (toLowerCase : string -> string)
    (invertedMapping : list (string * string)) (channels : Collection)
    (ircChannel : string) : Completion (JsRef Channel) :=
  match get_property invertedMapping (toLowerCase ircChannel) with
  | Own discordChannelName =>
      if String.eqb discordChannelName "" then Return JsNull
      else match resolve channels discordChannelName with
           | JsObj discordChannel => Return (JsObj discordChannel)
           | _ => Return JsNull
           end
  | Inherited => TypeError
  | Missing => Return JsNull
  end.

(** The keys of [this.ircOptions] that the spread [...this.ircOptions] puts
    over [userName] and [realName]; [None] is an absent key. *)
Record IrcOptions := mkIrcOptions {
  opt_userName : option string;
  opt_realName : option string
}.

(** An IRC client just made by [new irc.Client(server, nickName,
    ircOptions)]: the argument [nickName], the [userName] and [realName] of
    the argument [ircOptions], and the property [nick], which the library
    leaves [undefined] ([None]) until the server has registered the client. *)
Record IrcClient := mkIrcClient {
  nick : option string;
  nickName : string;
  userName : string;
  realName : string
}.

Definition or_default (override : option string) (value : string) : string :=
  match override with
  | Some v => v
  | None => value
  end.

(** [this.goldenGate.maxIrcConnections || 2]. *)
Definition connection_limit (maxIrcConnections : option Z) : Z :=
  match maxIrcConnections with
  | Some v => if v =? 0 then 2 else v
  | None => 2
  end.

(** The client [createIrcConnections] makes for a member. *)
Definition new_client (ircOptions : IrcOptions) (gm : GuildMember) : IrcClient :=
  let nick_name := getIrcName gm in
  let user_name := username gm in
  mkIrcClient None nick_name
    (or_default (opt_userName ircOptions) nick_name)
    (or_default (opt_realName ircOptions) user_name).

(** The body of the [forEach] of [createIrcConnections] for one member:
    [ircClients] by user id, and the counter [i]. *)
Definition connect_member (ircOptions : IrcOptions) (max : Z)
    (st : list (string * IrcClient) * Z) (gm : GuildMember)
  : list (string * IrcClient) * Z :=
  let '(ircClients, i) := st in
  match get_property ircClients (user_id gm) with
  | Missing =>
      if i >? max then (ircClients, i)
      else (ircClients ++ [(user_id gm, new_client ircOptions gm)], i + 1)
  | _ => (ircClients, i)
  end.

(** [createIrcConnections], from the members the [reduce] has gathered:
    the bots are filtered out and the rest is visited in order. *)
Definition createIrcConnections (ircOptions : IrcOptions) (maxIrcConnections : option Z)
    (members : list GuildMember) (ircClients : list (string * IrcClient))
  : list (string * IrcClient) :=
  fst (fold_left (connect_member ircOptions (connection_limit maxIrcConnections))
         (filter (fun gm => negb (bot gm || false)) members)
         (ircClients, 0)).

(** [cli.nick === nick]. *)
Definition has_nick (n : string) (cli : IrcClient) : bool :=
  match nick cli with
  | Some m => String.eqb m n
  | None => false
  end.

(** [isHandledClient(nickTab)]. *)
Definition isHandledClient (ircClients : list (string * IrcClient)) (nickTab : list string) : bool :=
  existsb (fun n => existsb (fun kv => has_nick n (snd kv)) ircClients) nickTab.

(** * Properties *)

(** ** Arrays *)

Section JsArrayFacts.
Context {A : Type}.
Implicit Types (f : A -> bool) (arr : list A).

Lemma findIndex_lower f arr : -1 <= findIndex f arr.
Proof.
  induction arr as [|x rest IH]; simpl; [lia|].
  destruct (f x); [lia|].
  destruct (findIndex f rest =? -1) eqn:E; lia.
Qed.

Lemma findIndex_absent f arr :
  findIndex f arr = -1 <-> (forall x, In x arr -> f x = false).
Proof.
  induction arr as [|x rest IH]; simpl.
  - split; [intros _ y []|reflexivity].
  - destruct (f x) eqn:Fx.
    + split; [discriminate|].
      intros H. specialize (H x (or_introl eq_refl)). congruence.
    + pose proof (findIndex_lower f rest) as L.
      destruct (findIndex f rest =? -1) eqn:E.
      * apply Z.eqb_eq in E. split; [|reflexivity].
        intros _ y [<-|Hy]; [exact Fx|]. now apply IH.
      * apply Z.eqb_neq in E. split; [lia|].
        intros H. exfalso. apply E, IH. intros y Hy. apply H. now right.
Qed.

Lemma findIndex_present f arr :
  findIndex f arr <> -1 <-> (exists x, In x arr /\ f x = true).
Proof.
  rewrite findIndex_absent. split.
  - induction arr as [|x rest IH]; intros H.
    + exfalso. apply H. intros y [].
    + destruct (f x) eqn:Fx.
      * exists x. split; [now left|exact Fx].
      * destruct IH as (y & Hy & Fy).
        -- intros H'. apply H. intros z [<-|Hz]; auto.
        -- exists y. split; [now right|exact Fy].
  - intros (x & Hx & Fx) H. rewrite (H x Hx) in Fx. discriminate.
Qed.

(** [findIndex] then [splice] removes the first match. *)
Lemma splice1_findIndex f arr :
  findIndex f arr <> -1 -> splice1 (findIndex f arr) arr = drop_first f arr.
Proof.
  unfold splice1. induction arr as [|x rest IH]; simpl; [congruence|].
  destruct (f x) eqn:Fx; [reflexivity|].
  pose proof (findIndex_lower f rest) as L.
  destruct (findIndex f rest =? -1) eqn:E; [congruence|].
  apply Z.eqb_neq in E. intros _.
  replace (Z.to_nat (findIndex f rest + 1)) with (S (Z.to_nat (findIndex f rest))) by lia.
  simpl. f_equal. now apply IH.
Qed.

Lemma drop_first_absent f arr :
  (forall x, In x arr -> f x = false) -> drop_first f arr = arr.
Proof.
  induction arr as [|x rest IH]; simpl; intros H; [reflexivity|].
  rewrite (H x (or_introl eq_refl)). f_equal. apply IH. intros y Hy. apply H. now right.
Qed.

Lemma drop_first_incl f arr x : In x (drop_first f arr) -> In x arr.
Proof.
  induction arr as [|y rest IH]; simpl; [tauto|].
  destruct (f y); simpl; intuition.
Qed.

Lemma drop_first_length f arr :
  (exists x, In x arr /\ f x = true) ->
  S (List.length (drop_first f arr)) = List.length arr.
Proof.
  induction arr as [|y rest IH]; simpl; intros (x & Hx & Fx); [contradiction|].
  destruct (f y) eqn:Fy; [reflexivity|]. simpl. f_equal. apply IH.
  destruct Hx as [->|Hx]; [congruence|]. now exists x.
Qed.

Lemma elem_at_In arr i x : elem_at arr i = Some x -> In x arr.
Proof. apply nth_error_In. Qed.

(** Taking the [n]-th element out leaves a permutation of the rest. *)
Lemma elem_at_split arr n x :
  elem_at arr n = Some x ->
  Permutation arr (x :: firstn n arr ++ skipn (S n) arr).
Proof.
  unfold elem_at. revert n. induction arr as [|y rest IH]; intros [|n]; simpl; try discriminate.
  - intros [= ->]. reflexivity.
  - intros H. rewrite perm_swap. constructor. now apply IH.
Qed.
End JsArrayFacts.

(** ** Entries and their ids *)

Lemma same_id_true a t : same_id a t = true <-> mid t = a.
Proof. unfold same_id, mid. apply String.eqb_eq. Qed.

Lemma same_id_false a t : same_id a t = false <-> mid t <> a.
Proof. unfold same_id, mid. apply String.eqb_neq. Qed.

Lemma findIndex_absent_id a arr :
  findIndex (same_id a) arr = -1 <-> ~ In a (map mid arr).
Proof.
  rewrite findIndex_absent, in_map_iff. split.
  - intros H (t & E & Ht). apply same_id_true in E. rewrite (H t Ht) in E. discriminate.
  - intros H t Ht. apply same_id_false. intros E. apply H. now exists t.
Qed.

Lemma remove_by_id_drop a arr : remove_by_id a arr = drop_first (same_id a) arr.
Proof.
  unfold remove_by_id. destruct (findIndex (same_id a) arr =? -1) eqn:E; simpl.
  - apply Z.eqb_eq in E. symmetry. apply drop_first_absent. now apply findIndex_absent.
  - apply Z.eqb_neq in E. now apply splice1_findIndex.
Qed.

Lemma drop_first_ids_incl a b arr :
  In b (map mid (drop_first (same_id a) arr)) -> In b (map mid arr).
Proof.
  rewrite !in_map_iff. intros (t & E & Ht). exists t. split; [exact E|].
  eapply drop_first_incl; eauto.
Qed.

Lemma drop_first_ids_other a b arr :
  b <> a -> In b (map mid arr) -> In b (map mid (drop_first (same_id a) arr)).
Proof.
  intros N. induction arr as [|t rest IH]; simpl; [tauto|].
  destruct (same_id a t) eqn:E.
  - apply same_id_true in E. intros [H|H]; [congruence|exact H].
  - simpl. intuition.
Qed.

Lemma drop_first_ids_gone a arr :
  NoDup (map mid arr) -> ~ In a (map mid (drop_first (same_id a) arr)).
Proof.
  induction arr as [|t rest IH]; simpl; [tauto|].
  intros D. inversion D as [|? ? Ht Dr]; subst.
  destruct (same_id a t) eqn:E.
  - apply same_id_true in E. now rewrite <- E.
  - apply same_id_false in E. simpl. intros [H|H]; [congruence|]. now apply IH.
Qed.

Lemma drop_first_ids_NoDup a arr :
  NoDup (map mid arr) -> NoDup (map mid (drop_first (same_id a) arr)).
Proof.
  induction arr as [|t rest IH]; simpl; [tauto|].
  intros D. inversion D as [|? ? Ht Dr]; subst.
  destruct (same_id a t); [exact Dr|].
  simpl. constructor; [|now apply IH].
  intros H. apply Ht. eapply drop_first_ids_incl; eauto.
Qed.

(** With one entry per id, removing by id removes every entry of that id
    and nothing else. *)
Lemma drop_first_ids_filter a arr :
  NoDup (map mid arr) ->
  drop_first (same_id a) arr = filter (fun t => negb (same_id a t)) arr.
Proof.
  induction arr as [|t rest IH]; simpl; [reflexivity|].
  intros D. inversion D as [|? ? Ht Dr]; subst.
  destruct (same_id a t) eqn:E; simpl.
  - apply same_id_true in E. symmetry. apply forallb_filter_id.
    apply forallb_forall. intros u Hu. apply negb_true_iff, same_id_false.
    intros Eu. apply Ht. rewrite E, <- Eu. now apply in_map.
  - f_equal. now apply IH.
Qed.

Lemma drop_first_own t arr :
  NoDup (map mid arr) -> In t arr ->
  Permutation arr (t :: drop_first (same_id (mid t)) arr).
Proof.
  induction arr as [|u rest IH]; simpl; [tauto|].
  intros D. inversion D as [|? ? Hu Dr]; subst. intros [->|Ht].
  - assert (E : same_id (mid t) t = true) by now apply same_id_true.
    rewrite E. reflexivity.
  - destruct (same_id (mid t) u) eqn:E.
    + apply same_id_true in E. exfalso. apply Hu. rewrite E. now apply in_map.
    + rewrite perm_swap. constructor. now apply IH.
Qed.

(** ** The sort *)

Lemma insert_by_dueDate_perm t arr : Permutation (t :: arr) (insert_by_dueDate t arr).
Proof.
  induction arr as [|u rest IH]; simpl; [reflexivity|].
  destruct (dueDate t - dueDate u <=? 0); [reflexivity|].
  rewrite perm_swap. now constructor.
Qed.

Lemma sort_by_dueDate_perm arr : Permutation arr (sort_by_dueDate arr).
Proof.
  induction arr as [|t rest IH]; simpl; [constructor|].
  rewrite <- insert_by_dueDate_perm. now constructor.
Qed.

Lemma insert_by_dueDate_sorted t arr :
  StronglySorted due_le arr -> StronglySorted due_le (insert_by_dueDate t arr).
Proof.
  induction 1 as [|u rest S IH F]; simpl.
  - repeat constructor.
  - destruct (dueDate t - dueDate u <=? 0) eqn:E.
    + apply Z.leb_le in E. constructor; [now constructor|].
      constructor; [unfold due_le; lia|].
      eapply Forall_impl; [|exact F]. unfold due_le. intros v Hv. lia.
    + apply Z.leb_gt in E. constructor; [exact IH|].
      eapply Permutation_Forall; [apply insert_by_dueDate_perm|].
      constructor; [unfold due_le; lia|exact F].
Qed.

Lemma sort_by_dueDate_sorted arr : StronglySorted due_le (sort_by_dueDate arr).
Proof.
  induction arr as [|t rest IH]; simpl; [constructor|].
  now apply insert_by_dueDate_sorted.
Qed.

Lemma sort_by_dueDate_In t arr : In t (sort_by_dueDate arr) <-> In t arr.
Proof.
  split; apply Permutation_in; [symmetry|]; apply sort_by_dueDate_perm.
Qed.

(** The head of the sorted array is due no later than any entry. *)
Lemma sort_by_dueDate_head t rest arr :
  sort_by_dueDate arr = t :: rest ->
  In t arr /\ forall u, In u arr -> dueDate t <= dueDate u.
Proof.
  intros E. pose proof (sort_by_dueDate_sorted arr) as S. rewrite E in S.
  split.
  - apply sort_by_dueDate_In. rewrite E. now left.
  - intros u Hu. apply sort_by_dueDate_In in Hu. rewrite E in Hu.
    inversion S as [|? ? _ F]; subst. destruct Hu as [->|Hu]; [lia|].
    rewrite Forall_forall in F. now apply F.
Qed.

(** ** The selection loop *)

Lemma due_candidates_In now p t :
  In t (due_candidates now p) <->
  In t (messageQueue p) /\ dueDate t < now /\ ~ In (mid t) (map mid (sas p)).
Proof.
  unfold due_candidates. rewrite sort_by_dueDate_In, !filter_In, Z.ltb_lt, Z.eqb_eq.
  change (fun s => String.eqb (id (message s)) (id (message t))) with (same_id (mid t)).
  rewrite findIndex_absent_id. tauto.
Qed.

Lemma issues_nothing now p : issues now p p [].
Proof.
  split; simpl; auto; try lia; try (now rewrite app_nil_r); try (intros t []).
Qed.

Lemma purge_round_issues now i p p' ds :
  purge_round now i p = (p', ds) -> issues now p p' ds /\ (List.length ds <= 1)%nat.
Proof.
  unfold purge_round. destruct (elem_at (due_candidates now p) i) as [tuple|] eqn:E.
  - intros [= <- <-]. apply elem_at_In, due_candidates_In in E.
    split; [|simpl; lia]. split; simpl; auto; try lia.
    + intros t [<-|[]]. exact E.
    + unfold push. rewrite map_app. simpl. intros D.
      apply NoDup_app; [exact D|repeat constructor; intros []|].
      intros a Ha [<-|[]]. tauto.
  - intros [= <- <-]. split; [apply issues_nothing|simpl; lia].
Qed.

Lemma issues_trans now p p1 p2 d1 d2 :
  issues now p p1 d1 -> issues now p1 p2 d2 -> issues now p p2 (d1 ++ d2).
Proof.
  intros [C1 Q1 S1 K1 D1 E1 U1 N1] [C2 Q2 S2 K2 D2 E2 U2 N2].
  split; try congruence; auto.
  - now rewrite S2, S1, app_assoc.
  - rewrite K2, K1, length_app. lia.
  - intros t Ht. apply in_app_or in Ht as [Ht|Ht]; [now apply U1|].
    destruct (U2 t Ht) as (Hq & Hd & Hs). rewrite Q1 in Hq.
    repeat split; auto. intros H. apply Hs. rewrite S1, map_app. apply in_or_app. now left.
Qed.

Lemma purge_loop_issues now n : forall i p p' ds,
  purge_loop now n i p = (p', ds) -> issues now p p' ds /\ (List.length ds <= n)%nat.
Proof.
  induction n as [|n IH]; simpl; intros i p p' ds.
  - intros [= <- <-]. split; [apply issues_nothing|simpl; lia].
  - destruct (purge_round now i p) as [p1 d1] eqn:R.
    destruct (purge_loop now n (S i) p1) as [p2 d2] eqn:L.
    intros [= <- <-]. apply purge_round_issues in R as [R Rl]. apply IH in L as [L Ll].
    split; [eapply issues_trans; eauto|]. rewrite length_app. lia.
Qed.

(** The tick as a whole. *)
Lemma purgeTimerWatch_backlog now p :
  sas p <> [] ->
  purgeTimerWatch now p =
    mkTick (mkPurge
              (set_interval (purgeTimerInterval (config p)
                             + purgeTimerInterval (config p) * backlog_ratio p)%float (config p))
              (messageQueue p) (sas p) (stats p))
           [] (backlog_ratio p).
Proof.
  intros H. unfold purgeTimerWatch. destruct (sas p); [congruence|]. reflexivity.
Qed.

Lemma purgeTimerWatch_issues now p :
  issues now p (after (purgeTimerWatch now p)) (issued (purgeTimerWatch now p))
  \/ (sas p <> [] /\ issued (purgeTimerWatch now p) = []
      /\ messageQueue (after (purgeTimerWatch now p)) = messageQueue p
      /\ sas (after (purgeTimerWatch now p)) = sas p
      /\ stats (after (purgeTimerWatch now p)) = stats p).
Proof.
  destruct (sas p) as [|s0 rest] eqn:S.
  - left. unfold purgeTimerWatch. rewrite S. simpl.
    destruct (purge_loop now (Z.to_nat (purgeCountPerRound (config p))) 0 p) as [p' ds] eqn:L.
    simpl. now apply purge_loop_issues in L.
  - right. assert (N : sas p <> []) by (rewrite S; discriminate).
    rewrite (purgeTimerWatch_backlog now p N). simpl. rewrite S. repeat split. discriminate.
Qed.

(** ** What every reachable state satisfies *)

Lemma invariant_initial cfg : invariant (initial cfg).
Proof.
  split; simpl; try constructor; try reflexivity. intros t [].
Qed.

Lemma invariant_tick now w :
  invariant w ->
  invariant (mkWorld (after (purgeTimerWatch now (purger w)))
                     (deleting w ++ issued (purgeTimerWatch now (purger w)))).
Proof.
  intros [Q Sa W D C].
  destruct (purgeTimerWatch_issues now (purger w)) as [I|(N & E & Eq & Es & Et)].
  - destruct I as [Ic Iq Is Ik Id Ie Iu In]. split; simpl.
    + now rewrite Iq.
    + now apply In.
    + rewrite Is, Iq. intros t Ht. apply in_app_or in Ht as [Ht|Ht]; [now apply W|].
      now apply Iu.
    + rewrite Is. now apply Permutation_app_tail.
    + rewrite Ik, Id, Ie, Is, length_app. lia.
  - split; simpl; rewrite ?E, ?Eq, ?Es, ?Et, ?app_nil_r; auto.
Qed.

Lemma invariant_settle (ok : bool) n tuple w :
  invariant w -> elem_at (deleting w) n = Some tuple ->
  invariant (mkWorld ((if ok then delete_fulfilled else delete_rejected) tuple (purger w))
                     (firstn n (deleting w) ++ skipn (S n) (deleting w))).
Proof.
  intros [Q Sa W D C] E.
  assert (Hs : In tuple (sas (purger w))).
  { eapply Permutation_in; [exact D|]. eapply elem_at_In; eauto. }
  pose proof (drop_first_own tuple _ Sa Hs) as P.
  pose proof (Permutation_length P) as L. simpl in L.
  destruct ok; unfold delete_fulfilled, delete_rejected, removeFromStores;
    (split; simpl; rewrite !remove_by_id_drop;
     change (id (message tuple)) with (mid tuple);
     [ now apply drop_first_ids_NoDup
     | now apply drop_first_ids_NoDup
     | rewrite (drop_first_ids_filter _ _ Q), (drop_first_ids_filter _ _ Sa);
       intros t Ht; apply filter_In in Ht as [Ht Hf]; apply filter_In; split; auto
     | apply (Permutation_cons_inv (a := tuple));
       rewrite <- P, <- D; symmetry; now apply elem_at_split
     | lia ]).
Qed.

Lemma invariant_addMessage msg due w :
  invariant w -> invariant (mkWorld (addMessage msg due (purger w)) (deleting w)).
Proof.
  intros [Q Sa W D C]. unfold addMessage.
  destruct (findIndex (same_id (id msg)) (messageQueue (purger w)) =? -1) eqn:E.
  - apply Z.eqb_eq, findIndex_absent_id in E.
    split; simpl; auto.
    + unfold push. rewrite map_app. simpl.
      apply NoDup_app; [exact Q|repeat constructor; intros []|].
      intros a Ha [<-|[]]. exact (E Ha).
    + intros t Ht. unfold push. apply in_or_app. left. now apply W.
  - split; auto.
Qed.

Lemma invariant_oldest w :
  invariant w -> invariant (mkWorld (snd (getOldestMessageInQueue (purger w))) (deleting w)).
Proof.
  intros [Q Sa W D C]. unfold getOldestMessageInQueue.
  assert (G : invariant (mkWorld (mkPurge (config (purger w)) (sort_by_dueDate (messageQueue (purger w)))
                                          (sas (purger w)) (stats (purger w))) (deleting w))).
  { split; simpl; auto.
    - eapply Permutation_NoDup; [|exact Q]. apply Permutation_map, sort_by_dueDate_perm.
    - intros t Ht. apply sort_by_dueDate_In. now apply W. }
  destruct (elem_at (sort_by_dueDate (messageQueue (purger w))) 0); exact G.
Qed.

Lemma invariant_step ev w w' : invariant w -> step ev w = Some w' -> invariant w'.
Proof.
  intros I. destruct ev as [now|ok n|msg due|]; simpl.
  - intros [= <-]. now apply invariant_tick.
  - destruct (elem_at (deleting w) n) as [tuple|] eqn:E; [|discriminate].
    intros [= <-]. now apply invariant_settle.
  - intros [= <-]. now apply invariant_addMessage.
  - intros [= <-]. now apply invariant_oldest.
Qed.

Lemma reachable_invariant cfg w : reachable cfg w -> invariant w.
Proof.
  induction 1 as [|ev w w' _ IH St]; [apply invariant_initial|].
  eapply invariant_step; eauto.
Qed.

Lemma run_reachable cfg evs : forall w w',
  reachable cfg w -> run evs w = Some w' -> reachable cfg w'.
Proof.
  induction evs as [|ev rest IH]; simpl; intros w w' R.
  - now intros [= <-].
  - destruct (step ev w) as [w1|] eqn:St; [|discriminate].
    apply IH. eapply reachable_step; eauto.
Qed.

(** A tick leaves the queue as it is. *)
Lemma purgeTimerWatch_queue now p :
  messageQueue (after (purgeTimerWatch now p)) = messageQueue p.
Proof.
  destruct (purgeTimerWatch_issues now p) as [I|(_ & _ & E & _)]; [apply I|exact E].
Qed.

Lemma purgeTimerWatch_issued_in_queue now p t :
  In t (issued (purgeTimerWatch now p)) ->
  In t (messageQueue p) /\ dueDate t < now /\ ~ In (mid t) (map mid (sas p)).
Proof.
  destruct (purgeTimerWatch_issues now p) as [I|(_ & E & _)].
  - apply I.
  - rewrite E. intros [].
Qed.

(** A tick issues at most [purgeCountPerRound] deletes. *)
Lemma purgeTimerWatch_batch_bound now p :
  (List.length (issued (purgeTimerWatch now p)) <= Z.to_nat (purgeCountPerRound (config p)))%nat.
Proof.
  unfold purgeTimerWatch. destruct (0 <? Z.of_nat (List.length (sas p))); simpl; [lia|].
  destruct (purge_loop now (Z.to_nat (purgeCountPerRound (config p))) 0 p) as [p' ds] eqn:L.
  simpl. now apply purge_loop_issues in L.
Qed.

(** An id that is not queued stays out of the queue, and no delete is issued
    for it, unless it is submitted again. *)
Lemma absent_not_issued a evs : forall w w',
  ~ In a (map mid (messageQueue (purger w))) ->
  ~ In a (submitted_along evs) ->
  run evs w = Some w' ->
  ~ In a (map mid (messageQueue (purger w'))) /\ ~ In a (map mid (issued_along evs w)).
Proof.
  induction evs as [|ev rest IH]; simpl; intros w w' Hq Hs.
  - intros [= <-]. split; [exact Hq|intros []].
  - destruct (step ev w) as [w1|] eqn:St; [|discriminate]. intros R.
    assert (Hq1 : ~ In a (map mid (messageQueue (purger w1))) /\
                  ~ In a (map mid match ev with
                                  | Tick now => issued (purgeTimerWatch now (purger w))
                                  | _ => []
                                  end) /\
                  ~ In a (submitted_along rest)).
    { destruct ev as [now|ok n|msg due|]; simpl in St.
      - injection St as <-. simpl. rewrite purgeTimerWatch_queue. repeat split; auto.
        rewrite in_map_iff. intros (t & E & Ht).
        apply purgeTimerWatch_issued_in_queue in Ht as (Ht & _).
        apply Hq. rewrite <- E. now apply in_map.
      - destruct (elem_at (deleting w) n) as [tuple|]; [|discriminate].
        injection St as <-. repeat split; auto.
        destruct ok; simpl; rewrite remove_by_id_drop; intros H;
          apply Hq; eapply drop_first_ids_incl; eauto.
      - injection St as <-. simpl in Hs. repeat split; auto.
        unfold addMessage. destruct (findIndex _ _ =? -1); simpl; auto.
        unfold push. rewrite map_app, in_app_iff. simpl. unfold mid at 2. simpl. tauto.
      - injection St as <-. repeat split; auto. unfold getOldestMessageInQueue.
        intros H. apply Hq.
        destruct (elem_at _ 0); simpl in H;
          (eapply Permutation_in; [symmetry; apply Permutation_map, sort_by_dueDate_perm|exact H]). }
    destruct Hq1 as (Hq1 & Hi & Hs1).
    destruct (IH w1 w' Hq1 Hs1 R) as (G1 & G2). split; [exact G1|].
    rewrite map_app, in_app_iff. tauto.
Qed.

(** An id in [sas] stays there, and no delete is issued for it, until the
    completion callback of an entry with that id runs. *)
Lemma in_flight_not_issued a evs : forall w w',
  In a (map mid (sas (purger w))) ->
  ~ In a (map mid (settled_along evs w)) ->
  run evs w = Some w' ->
  In a (map mid (sas (purger w'))) /\ ~ In a (map mid (issued_along evs w)).
Proof.
  induction evs as [|ev rest IH]; simpl; intros w w' Hs Hn.
  - intros [= <-]. split; [exact Hs|intros []].
  - destruct (step ev w) as [w1|] eqn:St; [|discriminate]. intros R.
    rewrite map_app, in_app_iff in Hn.
    assert (H1 : In a (map mid (sas (purger w1))) /\
                 match ev with
                 | Tick now => issued (purgeTimerWatch now (purger w))
                 | _ => []
                 end = []).
    { destruct ev as [now|ok n|msg due|]; simpl in St.
      - injection St as <-. simpl.
        assert (N : sas (purger w) <> []) by (intros E; rewrite E in Hs; exact Hs).
        rewrite (purgeTimerWatch_backlog now _ N). simpl. auto.
      - destruct (elem_at (deleting w) n) as [tuple|]; [|discriminate].
        injection St as <-. split; [|reflexivity].
        assert (Ne : a <> mid tuple) by (intros ->; apply Hn; left; now left).
        destruct ok; simpl; rewrite remove_by_id_drop; now apply drop_first_ids_other.
      - injection St as <-. split; [|reflexivity].
        unfold addMessage. now destruct (findIndex _ _ =? -1).
      - injection St as <-. split; [|reflexivity].
        unfold getOldestMessageInQueue. now destruct (elem_at _ 0). }
    destruct H1 as (Hs1 & Ei).
    destruct (IH w1 w' Hs1 (fun H => Hn (or_intror H)) R) as (G1 & G2).
    split; [exact G1|]. rewrite Ei. exact G2.
Qed.

(** The counters of a step never go down. *)
Lemma step_stats_monotone ev w w' :
  step ev w = Some w' ->
  itemsDeleted (stats (purger w)) <= itemsDeleted (stats (purger w'))
  /\ itemsDeletedCalled (stats (purger w)) <= itemsDeletedCalled (stats (purger w'))
  /\ errors (stats (purger w)) <= errors (stats (purger w')).
Proof.
  destruct ev as [now|ok n|msg due|]; simpl.
  - intros [= <-]. simpl.
    destruct (purgeTimerWatch_issues now (purger w)) as [I|(_ & _ & _ & _ & E)].
    + destruct I as [_ _ _ K D E _ _]. rewrite K, D, E. lia.
    + rewrite E. lia.
  - destruct (elem_at (deleting w) n) as [tuple|]; [|discriminate].
    intros [= <-]. destruct ok; simpl; lia.
  - intros [= <-]. simpl. unfold addMessage.
    destruct (findIndex _ _ =? -1); simpl; lia.
  - intros [= <-]. unfold getOldestMessageInQueue.
    destruct (elem_at _ 0); simpl; lia.
Qed.

Lemma demo_world_reachable : reachable demo_config demo_world.
Proof.
  apply (run_reachable demo_config demo_events (initial demo_config));
    [apply reachable_initial|reflexivity].
Qed.

(** ** Counters, completion and entries in flight *)

(** C9: in every state the scheduler can reach, [itemsDeletedCalled] equals
    [itemsDeleted + errors] plus the number of entries in [sas], and no event
    lowers any of the three counters. *)
Theorem C9_attempts_accounted cfg w :
  reachable cfg w ->
  itemsDeletedCalled (stats (purger w)) =
    itemsDeleted (stats (purger w)) + errors (stats (purger w))
    + Z.of_nat (List.length (sas (purger w)))
  /\ List.length (deleting w) = List.length (sas (purger w))
  /\ (forall ev w', step ev w = Some w' ->
        itemsDeleted (stats (purger w)) <= itemsDeleted (stats (purger w'))
        /\ itemsDeletedCalled (stats (purger w)) <= itemsDeletedCalled (stats (purger w'))
        /\ errors (stats (purger w)) <= errors (stats (purger w'))).
Proof.
  intros R. apply reachable_invariant in R. destruct R as [_ _ _ D C].
  split; [exact C|]. split; [now apply Permutation_length|].
  intros ev w'. apply step_stats_monotone.
Qed.

Lemma C9_attempts_accounted_witness :
  itemsDeletedCalled (stats (purger demo_world)) = 2
  /\ itemsDeletedCalled (stats (purger demo_world)) =
       itemsDeleted (stats (purger demo_world)) + errors (stats (purger demo_world))
       + Z.of_nat (List.length (sas (purger demo_world))).
Proof.
  split; [reflexivity|].
  exact (proj1 (C9_attempts_accounted demo_config demo_world demo_world_reachable)).
Defined.

(** C6, as amended: when the delete of an entry settles, its callback adds
    exactly 1 to [errors] on failure and exactly 1 to [itemsDeleted] on
    success, removes the entry (and nothing else) from [messageQueue] and
    from [sas], the delete is no longer outstanding, and no later tick
    issues a delete for that id unless the message is submitted anew. *)
Theorem C6_completion_drops_entry cfg w ok n tuple w' :
  reachable cfg w ->
  elem_at (deleting w) n = Some tuple ->
  step (Settle ok n) w = Some w' ->
  errors (stats (purger w')) = errors (stats (purger w)) + (if ok then 0 else 1)
  /\ itemsDeleted (stats (purger w')) = itemsDeleted (stats (purger w)) + (if ok then 1 else 0)
  /\ itemsDeletedCalled (stats (purger w')) = itemsDeletedCalled (stats (purger w))
  /\ messageQueue (purger w') =
       filter (fun t => negb (same_id (mid tuple) t)) (messageQueue (purger w))
  /\ sas (purger w') = filter (fun t => negb (same_id (mid tuple) t)) (sas (purger w))
  /\ ~ In (mid tuple) (map mid (messageQueue (purger w')))
  /\ ~ In (mid tuple) (map mid (sas (purger w')))
  /\ ~ In (mid tuple) (map mid (deleting w'))
  /\ (forall evs w'',
        ~ In (mid tuple) (submitted_along evs) ->
        run evs w' = Some w'' ->
        ~ In (mid tuple) (map mid (issued_along evs w'))).
Proof.
  intros R E St.
  assert (I' : invariant w').
  { eapply invariant_step; [eapply reachable_invariant; eauto|exact St]. }
  apply reachable_invariant in R. destruct R as [Q Sa W D C].
  simpl in St. rewrite E in St. injection St as <-.
  assert (Gq : ~ In (mid tuple) (map mid (messageQueue
             (purger (mkWorld ((if ok then delete_fulfilled else delete_rejected) tuple (purger w))
                              (firstn n (deleting w) ++ skipn (S n) (deleting w))))))).
  { destruct ok; simpl; rewrite remove_by_id_drop; now apply drop_first_ids_gone. }
  assert (Gs : ~ In (mid tuple) (map mid (sas
             (purger (mkWorld ((if ok then delete_fulfilled else delete_rejected) tuple (purger w))
                              (firstn n (deleting w) ++ skipn (S n) (deleting w))))))).
  { destruct ok; simpl; rewrite remove_by_id_drop; now apply drop_first_ids_gone. }
  repeat split.
  - destruct ok; simpl; lia.
  - destruct ok; simpl; lia.
  - destruct ok; reflexivity.
  - destruct ok; simpl; rewrite remove_by_id_drop; now apply drop_first_ids_filter.
  - destruct ok; simpl; rewrite remove_by_id_drop; now apply drop_first_ids_filter.
  - exact Gq.
  - exact Gs.
  - intros H. apply Gs. eapply Permutation_in; [|exact H].
    apply Permutation_map, I'.
  - intros evs w'' Hs Hr. eapply absent_not_issued; eauto.
Qed.

Lemma C6_completion_drops_entry_witness :
  exists tuple w',
    elem_at (deleting demo_world) 0 = Some tuple
    /\ step (Settle false 0) demo_world = Some w'
    /\ errors (stats (purger w')) = errors (stats (purger demo_world)) + 1.
Proof.
  eexists. eexists. split; [reflexivity|]. split; [reflexivity|].
  exact (proj1 (C6_completion_drops_entry demo_config demo_world false 0 _ _
                  demo_world_reachable eq_refl eq_refl)).
Defined.

(** C6 as stated fails: a message whose delete failed is deleted again
    once it is submitted again, which the poll of the Watcher does. In the
    demo run the delete of "m1" fails; the next poll asks for the messages
    before "m2" and so fetches "m1", [sendToPurge] queues it with its old
    due date, and once the other delete has settled the next tick issues a
    delete for "m1" again. *)
Lemma C6_resubmitted_message_is_reissued :
  exists w1 w2,
    step (Settle false 0) demo_world = Some w1
    /\ ~ In "m1"%string (map mid (messageQueue (purger w1)))
    /\ fst (fetchParams (purger w1)) = mkFetchParams (Some "m2"%string) 50
    /\ sendToPurge (start (mkWatcher [] demo_config [])) (demo_message "m1" 1000) (purger w1)
       = addMessage (demo_message "m1" 1000) 61000 (purger w1)
    /\ run [Settle true 0; Submit (demo_message "m1" 1000) 61000; Tick 300000] w1 = Some w2
    /\ In "m1"%string
          (map mid (issued_along
                      [Settle true 0; Submit (demo_message "m1" 1000) 61000; Tick 300000] w1)).
Proof.
  eexists. eexists. split; [reflexivity|]. split.
  - simpl. intuition discriminate.
  - split; [reflexivity|]. split; [reflexivity|]. split; [reflexivity|].
    simpl. auto.
Qed.

(** C3: a tick issues no delete for an id that is in [sas]; the id stays in
    [sas], and stays unselected by every later tick, for as long as the
    completion callback of its entry has not run. *)
Theorem C3_in_flight_excluded a now w :
  In a (map mid (sas (purger w))) ->
  ~ In a (map mid (issued (purgeTimerWatch now (purger w))))
  /\ (forall evs w',
        ~ In a (map mid (settled_along evs w)) ->
        run evs w = Some w' ->
        In a (map mid (sas (purger w'))) /\ ~ In a (map mid (issued_along evs w))).
Proof.
  intros Hs. split.
  - rewrite in_map_iff. intros (t & E & Ht).
    apply purgeTimerWatch_issued_in_queue in Ht as (_ & _ & Hn).
    apply Hn. now rewrite E.
  - intros evs w'. now apply in_flight_not_issued.
Qed.

Lemma C3_in_flight_excluded_witness :
  In "m1"%string (map mid (sas (purger demo_world)))
  /\ ~ In "m1"%string (map mid (issued (purgeTimerWatch 200000 (purger demo_world)))).
Proof.
  assert (H : In "m1"%string (map mid (sas (purger demo_world)))) by (simpl; auto).
  split; [exact H|].
  exact (proj1 (C3_in_flight_excluded "m1" 200000 demo_world H)).
Defined.

(** ** Submission *)

Lemma filter_same_id_absent a arr :
  ~ In a (map mid arr) -> filter (same_id a) arr = [].
Proof.
  induction arr as [|t rest IH]; simpl; [reflexivity|]. intros H.
  destruct (same_id a t) eqn:E.
  - apply same_id_true in E. tauto.
  - apply IH. tauto.
Qed.

Lemma filter_same_id_unique a arr :
  NoDup (map mid arr) -> In a (map mid arr) ->
  exists t, filter (same_id a) arr = [t] /\ In t arr.
Proof.
  induction arr as [|t rest IH]; simpl; [tauto|].
  intros D. inversion D as [|? ? Ht Dr]; subst. intros H.
  destruct (same_id a t) eqn:E.
  - apply same_id_true in E. exists t. split; [|now left].
    f_equal. apply filter_same_id_absent. now rewrite <- E.
  - apply same_id_false in E. destruct H as [H|H]; [congruence|].
    destruct (IH Dr H) as (u & Eu & Hu). exists u. split; [exact Eu|now right].
Qed.

Lemma addMessage_present msg due p :
  In (id msg) (map mid (messageQueue p)) -> addMessage msg due p = p.
Proof.
  intros H. unfold addMessage.
  destruct (findIndex (same_id (id msg)) (messageQueue p) =? -1) eqn:E; [|reflexivity].
  apply Z.eqb_eq, findIndex_absent_id in E. contradiction.
Qed.

Lemma addMessage_absent msg due p :
  ~ In (id msg) (map mid (messageQueue p)) ->
  addMessage msg due p =
    mkPurge (config p) (messageQueue p ++ [mkEntry due msg]) (sas p) (stats p).
Proof.
  intros H. unfold addMessage. apply findIndex_absent_id in H. now rewrite H.
Qed.

Lemma addMessage_queued msg due p :
  In (id msg) (map mid (messageQueue (addMessage msg due p))).
Proof.
  destruct (in_dec string_dec (id msg) (map mid (messageQueue p))) as [H|H].
  - now rewrite addMessage_present.
  - rewrite addMessage_absent by exact H. simpl. rewrite map_app, in_app_iff.
    right. now left.
Qed.

Lemma addMessage_NoDup msg due p :
  NoDup (map mid (messageQueue p)) ->
  NoDup (map mid (messageQueue (addMessage msg due p))).
Proof.
  intros D. destruct (in_dec string_dec (id msg) (map mid (messageQueue p))) as [H|H].
  - now rewrite addMessage_present.
  - rewrite addMessage_absent by exact H. simpl. rewrite map_app. simpl.
    apply NoDup_app; [exact D|repeat constructor; intros []|].
    intros a Ha [<-|[]]. exact (H Ha).
Qed.

(** C4: submitting a message whose id is already queued changes nothing; so
    a second submission of a message is absorbed, and with one entry per id
    in the queue beforehand there is exactly one entry of that id afterwards,
    which carries the due date of the first submission when the id was new. *)
Theorem C4_addMessage_idempotent msg d1 d2 p :
  NoDup (map mid (messageQueue p)) ->
  (In (id msg) (map mid (messageQueue p)) -> addMessage msg d2 p = p)
  /\ addMessage msg d2 (addMessage msg d1 p) = addMessage msg d1 p
  /\ (exists t,
        filter (same_id (id msg)) (messageQueue (addMessage msg d2 (addMessage msg d1 p))) = [t])
  /\ (~ In (id msg) (map mid (messageQueue p)) ->
      filter (same_id (id msg)) (messageQueue (addMessage msg d2 (addMessage msg d1 p)))
      = [mkEntry d1 msg]).
Proof.
  intros D.
  assert (E2 : addMessage msg d2 (addMessage msg d1 p) = addMessage msg d1 p)
    by apply addMessage_present, addMessage_queued.
  split; [apply addMessage_present|]. split; [exact E2|]. rewrite E2. split.
  - assert (D1 : NoDup (map mid (messageQueue (addMessage msg d1 p))))
      by now apply addMessage_NoDup.
    destruct (filter_same_id_unique _ _ D1 (addMessage_queued msg d1 p)) as (t & Et & _).
    now exists t.
  - intros H. rewrite addMessage_absent by exact H. simpl.
    rewrite filter_app, (filter_same_id_absent _ _ H). simpl.
    assert (E : same_id (id msg) (mkEntry d1 msg) = true) by now apply same_id_true.
    now rewrite E.
Qed.

Lemma C4_addMessage_idempotent_witness :
  addMessage (demo_message "m2" 2000) 99000 (purger demo_world) = purger demo_world.
Proof.
  refine (proj1 (C4_addMessage_idempotent (demo_message "m2" 2000) 62000 99000
                   (purger demo_world) _) _).
  - simpl. repeat constructor; simpl; intuition discriminate.
  - simpl. auto.
Defined.

(** ** The backoff *)





(** ** The oldest queued message and the poll cursor *)

Lemma sort_by_dueDate_nil arr : sort_by_dueDate arr = [] <-> arr = [].
Proof.
  split; [|now intros ->]. intros E. apply Permutation_nil.
  rewrite <- E. symmetry. apply sort_by_dueDate_perm.
Qed.

Lemma earliest_perm q q' t : Permutation q q' -> earliest q t -> earliest q' t.
Proof.
  intros P [Ht Hm]. split.
  - eapply Permutation_in; eauto.
  - intros u Hu. apply Hm. eapply Permutation_in; [symmetry|]; eauto.
Qed.

Lemma getOldestMessageInQueue_spec p :
  (fst (getOldestMessageInQueue p) = None <-> messageQueue p = [])
  /\ (forall msg, fst (getOldestMessageInQueue p) = Some msg ->
        exists t, earliest (messageQueue p) t /\ message t = msg)
  /\ Permutation (messageQueue p) (messageQueue (snd (getOldestMessageInQueue p)))
  /\ StronglySorted due_le (messageQueue (snd (getOldestMessageInQueue p)))
  /\ config (snd (getOldestMessageInQueue p)) = config p
  /\ sas (snd (getOldestMessageInQueue p)) = sas p
  /\ stats (snd (getOldestMessageInQueue p)) = stats p.
Proof.
  unfold getOldestMessageInQueue.
  destruct (sort_by_dueDate (messageQueue p)) as [|t rest] eqn:E; simpl.
  - pose proof (proj1 (sort_by_dueDate_nil _) E) as E0.
    repeat split; auto; try discriminate; [rewrite E0|]; constructor.
  - repeat split; try discriminate; auto.
    + intros E0. rewrite E0 in E. discriminate.
    + intros msg [= <-]. exists t. split; [|reflexivity].
      now apply (sort_by_dueDate_head t rest).
    + rewrite <- E. apply sort_by_dueDate_perm.
    + rewrite <- E. apply sort_by_dueDate_sorted.
Qed.

(** C10: [getOldestMessageInQueue] returns [null] exactly on an empty queue,
    and otherwise the message of an entry whose due date is minimal; the
    queue afterwards holds the same entries, sorted by ascending due date,
    and nothing else of the object changes. *)
Theorem C10_oldest_sorts_in_place p :
  (fst (getOldestMessageInQueue p) = None <-> messageQueue p = [])
  /\ (forall msg, fst (getOldestMessageInQueue p) = Some msg ->
        exists t, earliest (messageQueue p) t /\ message t = msg)
  /\ Permutation (messageQueue p) (messageQueue (snd (getOldestMessageInQueue p)))
  /\ StronglySorted due_le (messageQueue (snd (getOldestMessageInQueue p)))
  /\ config (snd (getOldestMessageInQueue p)) = config p
  /\ sas (snd (getOldestMessageInQueue p)) = sas p
  /\ stats (snd (getOldestMessageInQueue p)) = stats p.
Proof. exact (getOldestMessageInQueue_spec p). Qed.

(** The queue is really reordered: the entry submitted last comes first. *)
Example getOldestMessageInQueue_reorders :
  map mid (messageQueue (snd (getOldestMessageInQueue
     (addMessage (demo_message "early" 10) 10
        (addMessage (demo_message "late" 20) 20 (constructor demo_config))))))
  = ["early"; "late"]%string.
Proof. reflexivity. Qed.

Lemma cursor_for_perm q q' params :
  Permutation q q' -> cursor_for q params -> cursor_for q' params.
Proof.
  intros P (L & E & N). split; [exact L|]. split.
  - intros ->. apply E. apply Permutation_nil. now symmetry.
  - intros H. destruct N as (t & Ht & Hb).
    + intros ->. apply H. now apply Permutation_nil.
    + exists t. split; [eapply earliest_perm; eauto|exact Hb].
Qed.


(** The poll of one resolved channel over the queue of the demo run asks for
    the 50 messages before "m1", the entry due first. *)
Example watcherTicker_demo :
  map snd (requests (watcherTicker
                       (mkStarted [JsObj (mkChannel "100" "general" "text")] 60000)
                       (purger demo_world)))
  = [mkFetchParams (Some "m1"%string) 50].
Proof. reflexivity. Qed.

(** ** The due date of a submitted message *)

Lemma or_zero_field f : or_zero f = field f.
Proof.
  destruct f as [v|]; simpl; [|reflexivity].
  destruct (Z.eqb_spec v 0); congruence.
Qed.

Lemma getLifeTimeOffset_sum arg :
  let lt := match arg with
            | Some lt => lt
            | None => mkLifeTime None None None None
            end in
  getLifeTimeOffset arg =
  (field (days lt) * 86400 + field (hours lt) * 3600
   + field (minutes lt) * 60 + field (seconds lt)) * 1000.
Proof.
  unfold getLifeTimeOffset. destruct arg as [lt|]; simpl; rewrite ?or_zero_field; lia.
Qed.

(** C8: the due date given to [addMessage] is [createdAt] plus the offset
    [start] computed from the configuration,
    [(days*86400 + hours*3600 + minutes*60 + seconds) * 1000] milliseconds,
    an unset field counting 0; a message whose id is new is queued with it,
    so a queue filled by [sendToPurge] holds only entries due at
    [createdAt] plus the offset. *)
Theorem C8_dueDate_offset w msg p :
  let lt := match messageLifeTime (wconfig w) with
            | Some lt => lt
            | None => mkLifeTime None None None None
            end in
  let offset := (field (days lt) * 86400 + field (hours lt) * 3600
                 + field (minutes lt) * 60 + field (seconds lt)) * 1000 in
  lifeTimeOffset (start w) = offset
  /\ sendToPurge (start w) msg p = addMessage msg (createdAt msg + offset) p
  /\ (~ In (id msg) (map mid (messageQueue p)) ->
      In (mkEntry (createdAt msg + offset) msg)
         (messageQueue (sendToPurge (start w) msg p)))
  /\ ((forall t, In t (messageQueue p) -> dueDate t = createdAt (message t) + offset) ->
      forall t, In t (messageQueue (sendToPurge (start w) msg p)) ->
                dueDate t = createdAt (message t) + offset).
Proof.
  intros lt offset.
  assert (E : lifeTimeOffset (start w) = offset) by apply getLifeTimeOffset_sum.
  split; [exact E|]. unfold sendToPurge. rewrite E. split; [reflexivity|]. split.
  - intros H. rewrite addMessage_absent by exact H. simpl.
    apply in_or_app. right. now left.
  - intros Hq t. destruct (in_dec string_dec (id msg) (map mid (messageQueue p))) as [H|H].
    + rewrite addMessage_present by exact H. apply Hq.
    + rewrite addMessage_absent by exact H. simpl. rewrite in_app_iff.
      intros [Ht|[<-|[]]]; [now apply Hq|reflexivity].
Qed.

(** A lifetime of one minute: a message created at 1000 is due at 61000. *)
Example sendToPurge_demo :
  map dueDate (messageQueue
     (sendToPurge (start (mkWatcher [] demo_config [])) (demo_message "m1" 1000)
        (constructor demo_config)))
  = [61000].
Proof. reflexivity. Qed.

(** ** The batch of a tick *)

(** C1: with three queued entries due at [t1 < t2 < t3], all in the past, an
    empty [sas] and [purgeCountPerRound = 2], the tick issues the deletes of
    the first and of the third entry: the entry pushed on [sas] in the first
    round leaves the filtered array, and index 1 of what remains is the entry
    due at [t3]. *)
Theorem C1_tick_skips_second_due cfg m1 m2 m3 t1 t2 t3 now :
  t1 < t2 -> t2 < t3 -> t3 < now ->
  id m1 <> id m2 -> id m1 <> id m3 -> id m2 <> id m3 ->
  purgeCountPerRound cfg = 2 ->
  issued (purgeTimerWatch now
            (mkPurge cfg [mkEntry t1 m1; mkEntry t2 m2; mkEntry t3 m3] [] (mkStats 0 0 0)))
  = [mkEntry t1 m1; mkEntry t3 m3].
Proof.
  intros H12 H23 H3 N12 N13 N23 B.
  unfold purgeTimerWatch. simpl. rewrite B. change (Z.to_nat 2) with 2%nat.
  unfold purge_loop, purge_round, due_candidates. simpl.
  decide_tests. reflexivity.
Qed.

Lemma C1_tick_skips_second_due_witness :
  map mid (issued (purgeTimerWatch 100000
                     (mkPurge demo_config
                        [mkEntry 61000 (demo_message "m1" 1000);
                         mkEntry 62000 (demo_message "m2" 2000);
                         mkEntry 63000 (demo_message "m3" 3000)] [] (mkStats 0 0 0))))
  = ["m1"; "m3"]%string.
Proof.
  rewrite (C1_tick_skips_second_due demo_config
             (demo_message "m1" 1000) (demo_message "m2" 2000) (demo_message "m3" 3000)
             61000 62000 63000 100000);
    [reflexivity|lia|lia|lia|discriminate|discriminate|discriminate|reflexivity].
Defined.

(** With two entries due and [purgeCountPerRound = 2], one delete is issued. *)
Example purgeTimerWatch_two_due :
  map mid (issued (purgeTimerWatch 100000
                     (mkPurge demo_config
                        [mkEntry 61000 (demo_message "m1" 1000);
                         mkEntry 62000 (demo_message "m2" 2000)] [] (mkStats 0 0 0))))
  = ["m1"]%string.
Proof. reflexivity. Qed.

(** A message created at 5000 with a lifetime of one minute: the tick 61
    seconds later issues its delete, and the fulfilled delete leaves an empty
    queue and [itemsDeleted = 1]. *)
Example single_message_scenario :
  let cfg := mkConfig 10000%float 5000%float 15 (Some (mkLifeTime None None (Some 1) None)) in
  let s := start (mkWatcher [] cfg []) in
  let msg := demo_message "m1" 5000 in
  let w0 := mkWorld (sendToPurge s msg (constructor cfg)) [] in
  issued (purgeTimerWatch 66000 (purger w0)) = [mkEntry 65000 msg]
  /\ option_map (fun w => (messageQueue (purger w), sas (purger w), stats (purger w)))
       (run [Tick 66000; Settle true 0] w0)
     = Some ([], [], mkStats 1 1 0).
Proof. split; reflexivity. Qed.

(** ** The channels [start] keeps *)

Lemma start_drops_null w : ~ In JsNull (chans (start w)).
Proof.
  unfold start. simpl. rewrite filter_In. intros [_ H]. discriminate.
Qed.

Lemma Map_get_absent m (channels : Collection) :
  (forall kv, In kv channels -> fst kv <> m) -> Map_get m channels = JsUndefined.
Proof.
  intros H. unfold Map_get.
  destruct (find (fun kv => String.eqb (fst kv) m) channels) as [kv|] eqn:F; [|reflexivity].
  apply find_some in F as [Hk E]. apply String.eqb_eq in E. now apply H in Hk.
Qed.

Lemma resolve_by_id channels m :
  (forall rest, m <> String "#" rest) -> resolve channels m = Map_get m channels.
Proof.
  intros H. unfold resolve. destruct m as [|c rest]; [reflexivity|].
  destruct (Ascii.ascii_dec c "#") as [->|N]; [now destruct (H rest)|].
  destruct c as [[] [] [] [] [] [] [] []]; try reflexivity. now destruct N.
Qed.

Lemma watcherTicker_from_undefined cs : forall p,
  In JsUndefined cs -> threw (watcherTicker_from cs p) = true.
Proof.
  induction cs as [|[| |c] rest IH]; simpl; intros p; try tauto.
  intros [H|H]; [discriminate|]. destruct (fetchParams p) as [fp p1]. simpl. now apply IH.
Qed.

(** C2: a configured reference without a leading [#] whose id is not among
    the channels of the client resolves to [undefined], which [c !== null]
    keeps: [undefined] is in [chans] after [start], and the poll tick ends
    with a TypeError when it reaches it. *)
Theorem C2_unresolved_id_is_kept w m p :
  In m (map snd (mappings w)) ->
  (forall rest, m <> String "#" rest) ->
  (forall kv, In kv (discord_channels w) -> fst kv <> m) ->
  In JsUndefined (chans (start w))
  /\ threw (watcherTicker (start w) p) = true.
Proof.
  intros Hm Hn Ha.
  assert (G : In JsUndefined (chans (start w))).
  { unfold start. simpl. apply filter_In. split; [|reflexivity].
    rewrite <- (Map_get_absent m _ Ha), <- (resolve_by_id _ m Hn). now apply in_map. }
  split; [exact G|]. now apply watcherTicker_from_undefined.
Qed.

Lemma C2_unresolved_id_is_kept_witness :
  chans (start demo_watcher) = [JsObj (mkChannel "100" "general" "text"); JsUndefined]
  /\ threw (watcherTicker (start demo_watcher) (constructor demo_config)) = true.
Proof.
  split; [reflexivity|].
  refine (proj2 (C2_unresolved_id_is_kept demo_watcher "&ops" (constructor demo_config) _ _ _)).
  - simpl. auto.
  - intros rest. discriminate.
  - intros kv [<-|[]]. discriminate.
Defined.

(** * Further properties of the scheduler *)

(** ** Sorting and filtering *)

Lemma insert_by_dueDate_first t arr :
  Forall (due_le t) arr -> insert_by_dueDate t arr = t :: arr.
Proof.
  destruct arr as [|u rest]; simpl; [reflexivity|].
  intros F. inversion F as [|? ? Hu _]; subst. unfold due_le in Hu.
  destruct (Z.leb_spec (dueDate t - dueDate u) 0); [reflexivity|lia].
Qed.

(** Sorting a sorted array changes nothing. *)
Lemma sort_by_dueDate_fixed arr :
  StronglySorted due_le arr -> sort_by_dueDate arr = arr.
Proof.
  induction 1 as [|t rest Hs IH F]; simpl; [reflexivity|].
  rewrite IH. now apply insert_by_dueDate_first.
Qed.

Lemma sort_by_dueDate_idempotent arr :
  sort_by_dueDate (sort_by_dueDate arr) = sort_by_dueDate arr.
Proof. apply sort_by_dueDate_fixed, sort_by_dueDate_sorted. Qed.

Lemma filter_insert_by_dueDate f t arr :
  StronglySorted due_le arr ->
  filter f (insert_by_dueDate t arr) =
  if f t then insert_by_dueDate t (filter f arr) else filter f arr.
Proof.
  induction 1 as [|u rest Hs IH F]; simpl.
  - now destruct (f t).
  - destruct (Z.leb_spec (dueDate t - dueDate u) 0) as [L|L]; simpl.
    + destruct (f t) eqn:Ft; [|reflexivity].
      symmetry. apply insert_by_dueDate_first.
      assert (G : Forall (due_le t) (u :: rest)).
      { constructor; [unfold due_le; lia|].
        eapply Forall_impl; [|exact F]. unfold due_le. intros v Hv. lia. }
      change (if f u then u :: filter f rest else filter f rest) with (filter f (u :: rest)).
      rewrite Forall_forall in *. intros v Hv. apply G. now apply filter_In in Hv.
    + rewrite IH. destruct (f t), (f u); simpl; try reflexivity.
      destruct (Z.leb_spec (dueDate t - dueDate u) 0); [lia|reflexivity].
Qed.

(** Filtering before the sort or after it gives the same array. *)
Lemma sort_by_dueDate_filter f arr :
  sort_by_dueDate (filter f arr) = filter f (sort_by_dueDate arr).
Proof.
  induction arr as [|t rest IH]; simpl; [reflexivity|].
  rewrite filter_insert_by_dueDate by apply sort_by_dueDate_sorted.
  destruct (f t); simpl; now rewrite IH.
Qed.

Lemma filter_twice {A : Type} (f g : A -> bool) (l : list A) :
  filter f (filter g l) = filter (fun x => g x && f x) l.
Proof.
  induction l as [|x rest IH]; simpl; [reflexivity|].
  destruct (g x); simpl; [destruct (f x)|]; now rewrite IH.
Qed.

Lemma filter_other_ids a pre suf x :
  mid x = a -> NoDup (map mid (pre ++ x :: suf)) ->
  filter (fun t => negb (same_id a t)) (pre ++ x :: suf) = pre ++ suf.
Proof.
  intros E D. rewrite map_app in D. simpl in D.
  pose proof (NoDup_remove_2 _ _ _ D) as N. rewrite in_app_iff in N.
  assert (K : forall l, ~ In (mid x) (map mid l) ->
                        filter (fun t => negb (same_id a t)) l = l).
  { intros l Hl. apply forallb_filter_id, forallb_forall. intros u Hu.
    apply negb_true_iff, same_id_false. intros Eu. apply Hl.
    rewrite E, <- Eu. now apply in_map. }
  rewrite filter_app. simpl.
  assert (Ex : same_id a x = true) by now apply same_id_true.
  rewrite Ex. simpl. rewrite !K by tauto. reflexivity.
Qed.

Lemma NoDup_ids_filter f arr :
  NoDup (map mid arr) -> NoDup (map mid (filter f arr)).
Proof.
  induction arr as [|t rest IH]; simpl; [tauto|].
  intros D. inversion D as [|? ? Ht Dr]; subst.
  destruct (f t); simpl; [|now apply IH].
  constructor; [|now apply IH].
  rewrite in_map_iff. intros (u & E & Hu). apply Ht. rewrite <- E.
  apply in_map. now apply filter_In in Hu.
Qed.

Lemma due_candidates_NoDup now p :
  NoDup (map mid (messageQueue p)) -> NoDup (map mid (due_candidates now p)).
Proof.
  intros D. unfold due_candidates.
  eapply Permutation_NoDup; [apply Permutation_map, sort_by_dueDate_perm|].
  now apply NoDup_ids_filter, NoDup_ids_filter.
Qed.

(** The candidates after [tuple] is pushed on [sas]: those before, without
    the entries of its id. *)
Lemma due_candidates_push now p tuple st :
  due_candidates now (mkPurge (config p) (messageQueue p) (push (sas p) tuple) st) =
  filter (fun t => negb (same_id (mid tuple) t)) (due_candidates now p).
Proof.
  unfold due_candidates. simpl.
  rewrite <- sort_by_dueDate_filter. f_equal.
  rewrite !filter_twice. apply filter_ext. intros t.
  change (fun s => String.eqb (id (message s)) (id (message t))) with (same_id (mid t)).
  assert (E : (findIndex (same_id (mid t)) (push (sas p) tuple) =? -1) =
              (findIndex (same_id (mid t)) (sas p) =? -1) && negb (same_id (mid tuple) t)).
  { apply eq_true_iff_eq.
    rewrite andb_true_iff, negb_true_iff, !Z.eqb_eq, !findIndex_absent_id, same_id_false.
    unfold push. rewrite map_app, in_app_iff. simpl. intuition congruence. }
  rewrite E. destruct (findIndex (same_id (mid t)) (sas p) =? -1),
    (negb (same_id (mid tuple) t)), (dueDate t <? now); reflexivity.
Qed.

(** ** The batch a tick really selects *)

(** Past the end of the candidates the loop does nothing. *)
Lemma purge_loop_exhausted now n : forall i p,
  (List.length (due_candidates now p) <= i)%nat -> purge_loop now n i p = (p, []).
Proof.
  induction n as [|n IH]; simpl; intros i p L; [reflexivity|].
  unfold purge_round, elem_at.
  rewrite (proj2 (nth_error_None _ _) L).
  rewrite IH by lia. reflexivity.
Qed.

Lemma purge_loop_evens now n : forall i p pre suf,
  due_candidates now p = pre ++ suf ->
  List.length pre = i ->
  NoDup (map mid (pre ++ suf)) ->
  snd (purge_loop now n i p) = firstn n (evens suf).
Proof.
  induction n as [|n IH]; simpl; intros i p pre suf E L D; [reflexivity|].
  destruct suf as [|x suf'].
  - unfold purge_round, elem_at.
    rewrite (proj2 (nth_error_None _ _)) by (rewrite E, length_app; simpl; lia).
    rewrite purge_loop_exhausted by (rewrite E, length_app; simpl; lia). reflexivity.
  - unfold purge_round, elem_at. rewrite E.
    rewrite nth_error_app2 by lia. replace (i - List.length pre)%nat with 0%nat by lia.
    simpl.
    set (p1 := mkPurge (config p) (messageQueue p) (push (sas p) x)
                 (mkStats (itemsDeleted (stats p)) (itemsDeletedCalled (stats p) + 1)
                    (errors (stats p)))).
    assert (E1 : due_candidates now p1 = pre ++ suf').
    { unfold p1. rewrite due_candidates_push, E. now apply filter_other_ids. }
    assert (D1 : NoDup (map mid (pre ++ suf'))).
    { rewrite map_app in *. simpl in D. now apply NoDup_remove_1 in D. }
    destruct suf' as [|y suf''].
    + rewrite purge_loop_exhausted by (rewrite E1, length_app; simpl; lia).
      simpl. now destruct n.
    + destruct (purge_loop now n (S i) p1) as [p2 d2] eqn:L2. simpl. f_equal.
      change d2 with (snd (p2, d2)). rewrite <- L2.
      apply (IH (S i) p1 (pre ++ [y]) suf'').
      * rewrite E1, <- app_assoc. reflexivity.
      * rewrite length_app. simpl. lia.
      * rewrite <- app_assoc. exact D1.
Qed.

Lemma purgeTimerWatch_evens now p :
  sas p = [] ->
  NoDup (map mid (messageQueue p)) ->
  issued (purgeTimerWatch now p) =
  firstn (Z.to_nat (purgeCountPerRound (config p)))
         (evens (sort_by_dueDate (filter (fun t => dueDate t <? now) (messageQueue p)))).
Proof.
  intros Es D.
  assert (Ec : due_candidates now p =
               sort_by_dueDate (filter (fun t => dueDate t <? now) (messageQueue p))).
  { unfold due_candidates. rewrite Es. simpl. f_equal. f_equal.
    apply forallb_filter_id, forallb_forall. reflexivity. }
  unfold purgeTimerWatch. rewrite Es. simpl.
  destruct (purge_loop now (Z.to_nat (purgeCountPerRound (config p))) 0 p) as [p' ds] eqn:L.
  simpl. change ds with (snd (p', ds)). rewrite <- L, <- Ec.
  apply (purge_loop_evens now _ 0 p [] (due_candidates now p)); auto.
  simpl. now apply due_candidates_NoDup.
Qed.

(** X1: when a tick finds [sas] empty and the queue holds one entry per id,
    the deletes it issues are the entries at positions 0, 2, 4, ... of the
    sorted array of due entries, [purgeCountPerRound] of them at most. *)
Theorem tick_issues_every_other_due now p :
  sas p = [] ->
  NoDup (map mid (messageQueue p)) ->
  issued (purgeTimerWatch now p) =
  firstn (Z.to_nat (purgeCountPerRound (config p)))
         (evens (sort_by_dueDate (filter (fun t => dueDate t <? now) (messageQueue p)))).
Proof. exact (purgeTimerWatch_evens now p). Qed.

Lemma tick_issues_every_other_due_witness :
  map mid (issued (purgeTimerWatch 100000
     (mkPurge (mkConfig 10000%float 5000%float 15 None)
        [mkEntry 65000 (demo_message "m5" 5000); mkEntry 61000 (demo_message "m1" 1000);
         mkEntry 64000 (demo_message "m4" 4000); mkEntry 62000 (demo_message "m2" 2000);
         mkEntry 63000 (demo_message "m3" 3000)] [] (mkStats 0 0 0))))
  = ["m1"; "m3"; "m5"]%string.
Proof.
  rewrite tick_issues_every_other_due.
  - reflexivity.
  - reflexivity.
  - simpl. repeat constructor; simpl; intuition discriminate.
Defined.

(** X2: a tick that finds [sas] empty, a positive [purgeCountPerRound] and
    some queued entry past due issues at least one delete, and the first one
    is for an entry due no later than any other entry past due. *)
Theorem tick_issues_earliest_first now p t :
  sas p = [] ->
  NoDup (map mid (messageQueue p)) ->
  0 < purgeCountPerRound (config p) ->
  In t (messageQueue p) -> dueDate t < now ->
  exists first others,
    issued (purgeTimerWatch now p) = first :: others
    /\ In first (messageQueue p)
    /\ dueDate first < now
    /\ (forall u, In u (messageQueue p) -> dueDate u < now -> dueDate first <= dueDate u).
Proof.
  intros Es D B Ht Hd. rewrite (purgeTimerWatch_evens now p Es D).
  set (due := filter (fun u => dueDate u <? now) (messageQueue p)).
  assert (Hin : In t due) by (apply filter_In; split; [exact Ht|now apply Z.ltb_lt]).
  destruct (sort_by_dueDate due) as [|first rest] eqn:E.
  - apply (proj1 (sort_by_dueDate_nil _)) in E. rewrite E in Hin. destruct Hin.
  - destruct (sort_by_dueDate_head first rest due E) as (Hf & Hm).
    apply filter_In in Hf as (Hq & Hl). apply Z.ltb_lt in Hl.
    destruct (Z.to_nat (purgeCountPerRound (config p))) as [|n] eqn:En; [lia|].
    exists first. destruct rest as [|y rest']; simpl; eexists; (split; [reflexivity|]);
      (repeat split; auto; intros u Hu Hud; apply Hm, filter_In; split;
       [exact Hu|now apply Z.ltb_lt]).
Qed.

Lemma tick_issues_earliest_first_witness :
  exists first others,
    issued (purgeTimerWatch 61500
              (mkPurge demo_config
                 [mkEntry 62000 (demo_message "m2" 2000);
                  mkEntry 61000 (demo_message "m1" 1000)] [] (mkStats 0 0 0)))
    = first :: others
    /\ mid first = "m1"%string.
Proof.
  destruct (tick_issues_earliest_first 61500
              (mkPurge demo_config
                 [mkEntry 62000 (demo_message "m2" 2000);
                  mkEntry 61000 (demo_message "m1" 1000)] [] (mkStats 0 0 0))
              (mkEntry 61000 (demo_message "m1" 1000)))
    as (first & others & E & _).
  - reflexivity.
  - simpl. repeat constructor; simpl; intuition discriminate.
  - reflexivity.
  - simpl. auto.
  - simpl. lia.
  - exists first, others. split; [exact E|].
    simpl in E. injection E as <- _. reflexivity.
Defined.

(** X3: a tick that finds [sas] empty and no queued entry due before [now]
    (an entry due exactly at [now] is not yet due) changes nothing, issues
    nothing, and asks to be called again after [purgeTimerInterval]. *)
Theorem tick_without_due_entries now p :
  sas p = [] ->
  (forall t, In t (messageQueue p) -> now <= dueDate t) ->
  purgeTimerWatch now p = mkTick p [] (purgeTimerInterval (config p)).
Proof.
  intros Es Hd.
  assert (Ec : due_candidates now p = []).
  { unfold due_candidates.
    assert (F : forall l, filter (fun t => dueDate t <? now)
                            (filter (fun t => findIndex (fun s => String.eqb (id (message s)) (id (message t))) (sas p) =? -1) l) = []
                          \/ exists t, In t l /\ dueDate t < now).
    { induction l as [|t rest [IH|(u & Hu & Lu)]]; simpl; auto.
      - destruct (findIndex _ (sas p) =? -1); simpl; auto.
        destruct (Z.ltb_spec (dueDate t) now); auto. right. exists t. auto.
      - right. exists u. auto. }
    destruct (F (messageQueue p)) as [->|(t & Ht & Lt)]; [reflexivity|].
    apply Hd in Ht. lia. }
  unfold purgeTimerWatch. rewrite Es. simpl.
  rewrite purge_loop_exhausted by (rewrite Ec; simpl; lia). reflexivity.
Qed.

Lemma tick_without_due_entries_witness :
  purgeTimerWatch 61000
    (mkPurge demo_config [mkEntry 61000 (demo_message "m1" 1000)] [] (mkStats 0 0 0))
  = mkTick (mkPurge demo_config [mkEntry 61000 (demo_message "m1" 1000)] [] (mkStats 0 0 0))
           [] 10000%float.
Proof.
  apply tick_without_due_entries; [reflexivity|].
  intros t [<-|[]]. simpl. lia.
Defined.

(** X4: whatever the state, the deletes a tick issues are for queued
    entries that are past due and whose id is not in [sas]; no id is issued
    twice, and there are at most [purgeCountPerRound] of them. *)
Theorem tick_batch_is_sound now p :
  (List.length (issued (purgeTimerWatch now p))
   <= Z.to_nat (purgeCountPerRound (config p)))%nat
  /\ NoDup (map mid (issued (purgeTimerWatch now p)))
  /\ (forall t, In t (issued (purgeTimerWatch now p)) ->
        In t (messageQueue p) /\ dueDate t < now /\ ~ In (mid t) (map mid (sas p))).
Proof.
  split; [apply purgeTimerWatch_batch_bound|]. split; [|apply purgeTimerWatch_issued_in_queue].
  destruct (purgeTimerWatch_issues now p) as [I|(N & E & _)].
  - destruct (sas p) as [|s0 rest] eqn:Es.
    + destruct I as [_ _ Is _ _ _ _ In]. rewrite Es in *. simpl in Is.
      rewrite <- Is. apply In. constructor.
    + assert (N : sas p <> []) by (rewrite Es; discriminate).
      rewrite (purgeTimerWatch_backlog now p N). constructor.
  - rewrite E. constructor.
Qed.

(** ** The stores in reachable states *)

Lemma step_purgeCountPerRound ev w w' :
  step ev w = Some w' ->
  purgeCountPerRound (config (purger w')) = purgeCountPerRound (config (purger w)).
Proof.
  destruct ev as [now|ok n|msg due|]; simpl.
  - intros [= <-]. simpl. destruct (sas (purger w)) as [|s0 rest] eqn:Es.
    + destruct (purgeTimerWatch_issues now (purger w)) as [I|(N & _)]; [|congruence].
      destruct I as [Ic _ _ _ _ _ _ _]. now rewrite Ic.
    + assert (N : sas (purger w) <> []) by (rewrite Es; discriminate).
      now rewrite (purgeTimerWatch_backlog now _ N).
  - destruct (elem_at (deleting w) n) as [tuple|]; [|discriminate].
    intros [= <-]. now destruct ok.
  - intros [= <-]. simpl. unfold addMessage. now destruct (findIndex _ _ =? -1).
  - intros [= <-]. unfold getOldestMessageInQueue. now destruct (elem_at _ 0).
Qed.

Lemma drop_first_length_le {A : Type} (f : A -> bool) arr :
  (List.length (drop_first f arr) <= List.length arr)%nat.
Proof.
  induction arr as [|x rest IH]; simpl; [lia|]. destruct (f x); simpl; lia.
Qed.

Lemma reachable_sas_bound cfg w :
  reachable cfg w ->
  purgeCountPerRound (config (purger w)) = purgeCountPerRound cfg
  /\ (List.length (sas (purger w)) <= Z.to_nat (purgeCountPerRound cfg))%nat.
Proof.
  induction 1 as [|ev w w' R [IHc IHl] St]; [simpl; split; [reflexivity|lia]|].
  split; [rewrite (step_purgeCountPerRound _ _ _ St); exact IHc|].
  destruct ev as [now|ok n|msg due|]; simpl in St.
  - injection St as <-. simpl.
    pose proof (purgeTimerWatch_batch_bound now (purger w)) as B. rewrite IHc in B.
    destruct (purgeTimerWatch_issues now (purger w)) as [I|(N & _ & _ & Es & _)].
    + destruct (sas (purger w)) as [|s0 rest] eqn:E0.
      * destruct I as [_ _ Is _ _ _ _ _]. rewrite Is, E0. exact B.
      * assert (N : sas (purger w) <> []) by (rewrite E0; discriminate).
        rewrite (purgeTimerWatch_backlog now _ N). simpl. now rewrite E0.
    + now rewrite Es.
  - destruct (elem_at (deleting w) n) as [tuple|]; [|discriminate].
    injection St as <-.
    destruct ok; simpl; rewrite remove_by_id_drop;
      (eapply Nat.le_trans; [apply drop_first_length_le|exact IHl]).
  - injection St as <-. simpl. unfold addMessage. now destruct (findIndex _ _ =? -1).
  - injection St as <-. unfold getOldestMessageInQueue. now destruct (elem_at _ 0).
Qed.

(** X5: in every state the scheduler can reach, the queue and [sas] hold at
    most one entry per message id, every entry of [sas] is still in the
    queue, the outstanding deletes are exactly the entries of [sas], and
    [sas] never holds more than [purgeCountPerRound] entries. *)
Theorem reachable_stores cfg w :
  reachable cfg w ->
  NoDup (map mid (messageQueue (purger w)))
  /\ NoDup (map mid (sas (purger w)))
  /\ incl (sas (purger w)) (messageQueue (purger w))
  /\ Permutation (deleting w) (sas (purger w))
  /\ (List.length (sas (purger w)) <= Z.to_nat (purgeCountPerRound cfg))%nat.
Proof.
  intros R. destruct (reachable_invariant cfg w R) as [Hq Hs Hw Hd _].
  destruct (reachable_sas_bound cfg w R) as [_ Hl]. auto.
Qed.

Lemma reachable_stores_witness :
  NoDup (map mid (messageQueue (purger demo_world)))
  /\ (List.length (sas (purger demo_world)) <= 2)%nat.
Proof.
  destruct (reachable_stores demo_config demo_world demo_world_reachable)
    as (Hq & _ & _ & _ & Hl).
  split; [exact Hq|exact Hl].
Defined.

(** ** Ticks during a backlog *)

(** X6: a tick that finds deletes outstanding, in a reachable state, issues
    nothing and leaves the queue, [sas] and the counters as they are; the
    delay it hands to [setTimeout] is the binary64 quotient
    [sas.length / purgeCountPerRound], in which the number of entries in
    [sas] is positive and at most [purgeCountPerRound]. *)
Theorem backlog_tick_delay cfg now w :
  reachable cfg w ->
  sas (purger w) <> [] ->
  issued (purgeTimerWatch now (purger w)) = []
  /\ messageQueue (after (purgeTimerWatch now (purger w))) = messageQueue (purger w)
  /\ sas (after (purgeTimerWatch now (purger w))) = sas (purger w)
  /\ stats (after (purgeTimerWatch now (purger w))) = stats (purger w)
  /\ timeout (purgeTimerWatch now (purger w)) =
     (number_of_Z (Z.of_nat (List.length (sas (purger w))))
      / number_of_Z (purgeCountPerRound cfg))%float
  /\ 0 < Z.of_nat (List.length (sas (purger w))) <= purgeCountPerRound cfg.
Proof.
  intros R N. destruct (reachable_sas_bound cfg w R) as [Ec Hl].
  rewrite (purgeTimerWatch_backlog now _ N). simpl.
  assert (Hk : (0 < List.length (sas (purger w)))%nat)
    by (destruct (sas (purger w)); [congruence|simpl; lia]).
  unfold backlog_ratio. rewrite Ec.
  do 4 (split; [reflexivity|]). split; [reflexivity|]. lia.
Qed.

Lemma backlog_tick_delay_witness :
  timeout (purgeTimerWatch 200000 (purger demo_world)) = 1%float.
Proof.
  assert (N : sas (purger demo_world) <> []) by discriminate.
  rewrite (proj1 (proj2 (proj2 (proj2 (proj2
             (backlog_tick_delay demo_config 200000 demo_world demo_world_reachable N)))))).
  reflexivity.
Defined.

(** While no delete settles, nothing changes [sas] and no tick issues
    anything. *)
Lemma stalled_run evs : forall w w',
  sas (purger w) <> [] ->
  settled_along evs w = [] ->
  run evs w = Some w' ->
  sas (purger w') = sas (purger w)
  /\ purgeCountPerRound (config (purger w')) = purgeCountPerRound (config (purger w))
  /\ issued_along evs w = [].
Proof.
  induction evs as [|ev rest IH]; simpl; intros w w' N Hn.
  - intros [= <-]. auto.
  - destruct (step ev w) as [w1|] eqn:St; [|discriminate]. intros R.
    apply app_eq_nil in Hn as [Hn1 Hn2].
    assert (H1 : sas (purger w1) = sas (purger w) /\
                 match ev with
                 | Tick now => issued (purgeTimerWatch now (purger w))
                 | _ => []
                 end = []).
    { destruct ev as [now|ok n|msg due|]; simpl in St.
      - injection St as <-. simpl. rewrite (purgeTimerWatch_backlog now _ N). auto.
      - destruct (elem_at (deleting w) n) as [tuple|]; discriminate.
      - injection St as <-. split; [|reflexivity]. simpl. unfold addMessage.
        now destruct (findIndex _ _ =? -1).
      - injection St as <-. split; [|reflexivity]. unfold getOldestMessageInQueue.
        now destruct (elem_at _ 0). }
    destruct H1 as (Es & Ei).
    destruct (IH w1 w') as (G1 & G2 & G3); auto; [now rewrite Es|].
    rewrite G1, G2, Ei, G3, Es, (step_purgeCountPerRound _ _ _ St). auto.
Qed.

Lemma backlog_ticks_interval nows : forall w w',
  sas (purger w) <> [] ->
  run (map Tick nows) w = Some w' ->
  purgeTimerInterval (config (purger w')) =
  Nat.iter (List.length nows) (backoff (backlog_ratio (purger w)))
           (purgeTimerInterval (config (purger w))).
Proof.
  induction nows as [|now rest IH]; intros w w' N.
  - simpl. now intros [= <-].
  - cbn [map run step List.length]. intros R.
    set (w1 := mkWorld (after (purgeTimerWatch now (purger w)))
                 (deleting w ++ issued (purgeTimerWatch now (purger w)))) in *.
    assert (E1 : purger w1 =
                 mkPurge (set_interval (backoff (backlog_ratio (purger w))
                                          (purgeTimerInterval (config (purger w))))
                            (config (purger w)))
                         (messageQueue (purger w)) (sas (purger w)) (stats (purger w))).
    { unfold w1. cbn [purger]. now rewrite (purgeTimerWatch_backlog now _ N). }
    assert (N1 : sas (purger w1) <> []) by (rewrite E1; exact N).
    rewrite (IH w1 w' N1 R), Nat.iter_succ_r.
    assert (F : backlog_ratio (purger w1) = backlog_ratio (purger w))
      by (rewrite E1; reflexivity).
    rewrite F, E1. reflexivity.
Qed.

(** X7: while no delete settles, a non-empty [sas] stays as it is and no
    tick issues a delete, whatever else happens; and each of [n] ticks in a
    row replaces [purgeTimerInterval] [x] by the binary64 value of
    [x + x * (sas.length / purgeCountPerRound)], with the same quotient. *)
Theorem stalled_scheduler w :
  sas (purger w) <> [] ->
  (forall evs w',
     settled_along evs w = [] ->
     run evs w = Some w' ->
     sas (purger w') = sas (purger w) /\ issued_along evs w = [])
  /\ (forall nows w',
        run (map Tick nows) w = Some w' ->
        purgeTimerInterval (config (purger w')) =
        Nat.iter (List.length nows)
          (fun x => (x + x * (number_of_Z (Z.of_nat (List.length (sas (purger w))))
                              / number_of_Z (purgeCountPerRound (config (purger w)))))%float)
          (purgeTimerInterval (config (purger w)))).
Proof.
  intros N. split.
  - intros evs w' Hn R. destruct (stalled_run evs w w' N Hn R) as (G1 & _ & G3). auto.
  - intros nows w'. now apply backlog_ticks_interval.
Qed.

Lemma stalled_scheduler_witness :
  exists w', run (map Tick [200000; 200001; 200002]) demo_world = Some w'
             /\ purgeTimerInterval (config (purger w')) = 80000%float.
Proof.
  assert (N : sas (purger demo_world) <> []) by discriminate.
  eexists. split; [reflexivity|].
  rewrite (proj2 (stalled_scheduler demo_world N) [200000; 200001; 200002] _ eq_refl).
  reflexivity.
Defined.

(** ** How entries leave the queue *)

Lemma same_id_in_unique arr t u :
  NoDup (map mid arr) -> In t arr -> In u arr -> mid t = mid u -> t = u.
Proof.
  induction arr as [|x rest IH]; simpl; [tauto|].
  intros D. inversion D as [|? ? Hx Dr]; subst.
  intros [->|Ht] [->|Hu] E; auto.
  - exfalso. apply Hx. rewrite E. now apply in_map.
  - exfalso. apply Hx. rewrite <- E. now apply in_map.
Qed.

Lemma drop_first_keeps_others a arr t :
  In t arr -> mid t <> a -> In t (drop_first (same_id a) arr).
Proof.
  induction arr as [|x rest IH]; simpl; [tauto|].
  intros [->|Ht] N.
  - assert (E : same_id a t = false) by now apply same_id_false.
    rewrite E. now left.
  - destruct (same_id a x); [exact Ht|]. right. now apply IH.
Qed.

(** X8: in a reachable state a queued entry is still queued after any
    event, except after the settlement of its own delete: neither a tick nor
    a submission nor the query for the oldest message removes an entry. *)
Theorem entry_leaves_only_when_settled cfg ev w w' t :
  reachable cfg w ->
  step ev w = Some w' ->
  In t (messageQueue (purger w)) ->
  In t (messageQueue (purger w'))
  \/ (exists ok n, ev = Settle ok n /\ elem_at (deleting w) n = Some t).
Proof.
  intros R St Ht. destruct (reachable_invariant cfg w R) as [Hq Hs Hw Hd _].
  destruct ev as [now|ok n|msg due|]; simpl in St.
  - injection St as <-. left. simpl. now rewrite purgeTimerWatch_queue.
  - destruct (elem_at (deleting w) n) as [tuple|] eqn:E; [|discriminate].
    injection St as <-.
    destruct (string_dec (mid t) (mid tuple)) as [Em|Nm].
    + right. exists ok, n. split; [reflexivity|]. rewrite E. f_equal. symmetry.
      apply (same_id_in_unique (messageQueue (purger w))); auto.
      apply Hw. eapply Permutation_in; [exact Hd|]. eapply elem_at_In; eauto.
    + left. destruct ok; simpl; rewrite remove_by_id_drop;
        now apply drop_first_keeps_others.
  - injection St as <-. left. simpl. unfold addMessage.
    destruct (findIndex _ _ =? -1); simpl; [|exact Ht].
    unfold push. apply in_or_app. now left.
  - injection St as <-. left. unfold getOldestMessageInQueue.
    destruct (elem_at _ 0); simpl; now apply sort_by_dueDate_In.
Qed.

Lemma entry_leaves_only_when_settled_witness :
  In (mkEntry 62000 (demo_message "m2" 2000))
     (messageQueue (after (purgeTimerWatch 300000 (purger demo_world)))).
Proof.
  destruct (entry_leaves_only_when_settled demo_config (Tick 300000) demo_world
              (mkWorld (after (purgeTimerWatch 300000 (purger demo_world)))
                       (deleting demo_world ++ issued (purgeTimerWatch 300000 (purger demo_world))))
              (mkEntry 62000 (demo_message "m2" 2000))
              demo_world_reachable eq_refl) as [H|(ok & n & E & _)].
  - simpl. auto.
  - exact H.
  - discriminate.
Defined.

Lemma drop_first_comm a b (arr : list QueueEntry) :
  drop_first (same_id a) (drop_first (same_id b) arr) =
  drop_first (same_id b) (drop_first (same_id a) arr).
Proof.
  destruct (string_dec a b) as [->|N]; [reflexivity|].
  induction arr as [|x rest IH]; simpl; [reflexivity|].
  destruct (same_id a x) eqn:Ea, (same_id b x) eqn:Eb; simpl; rewrite ?Ea, ?Eb.
  - apply same_id_true in Ea, Eb. congruence.
  - reflexivity.
  - reflexivity.
  - now rewrite IH.
Qed.

(** X9: the order in which two deletes settle does not matter: the two
    callbacks, each of a success or of a failure, commute. *)
Theorem settlements_commute ok1 ok2 t1 t2 p :
  settle ok1 t1 (settle ok2 t2 p) = settle ok2 t2 (settle ok1 t1 p).
Proof.
  unfold settle, delete_fulfilled, delete_rejected, removeFromStores.
  destruct ok1, ok2; simpl; rewrite !remove_by_id_drop;
    rewrite (drop_first_comm (id (message t1)) (id (message t2)) (messageQueue p));
    rewrite (drop_first_comm (id (message t1)) (id (message t2)) (sas p));
    reflexivity.
Qed.

(** ** The poll *)

Lemma getOldestMessageInQueue_again p :
  getOldestMessageInQueue (snd (getOldestMessageInQueue p)) = getOldestMessageInQueue p.
Proof.
  unfold getOldestMessageInQueue.
  pose proof (sort_by_dueDate_idempotent (messageQueue p)) as F.
  destruct (sort_by_dueDate (messageQueue p)) as [|t rest];
    cbn [elem_at nth_error snd messageQueue config sas stats]; rewrite F; reflexivity.
Qed.

Lemma fetchParams_again p : fetchParams (snd (fetchParams p)) = fetchParams p.
Proof.
  unfold fetchParams.
  destruct (getOldestMessageInQueue p) as [oldest p'] eqn:G.
  assert (G' : getOldestMessageInQueue p' = (oldest, p')).
  { pose proof (getOldestMessageInQueue_again p) as H. rewrite G in H. exact H. }
  destruct oldest; simpl; rewrite G'; reflexivity.
Qed.

Lemma watcherTicker_from_same_params cs : forall p chan params,
  In (chan, params) (requests (watcherTicker_from cs p)) ->
  params = fst (fetchParams p).
Proof.
  induction cs as [|[| |c] rest IH]; simpl; intros p chan params; try tauto.
  pose proof (fetchParams_again p) as A.
  destruct (fetchParams p) as [fp p1]. simpl in *. intros [[= <- <-]|H]; [reflexivity|].
  apply IH in H. now rewrite A in H.
Qed.





(** X10: asking for the oldest message twice gives the same answer and the
    second call changes nothing more; so within one poll tick every channel
    is asked with the same [before] and [limit]. *)
Theorem poll_cursor_is_shared s p :
  getOldestMessageInQueue (snd (getOldestMessageInQueue p)) = getOldestMessageInQueue p
  /\ (forall chan1 params1 chan2 params2,
        In (chan1, params1) (requests (watcherTicker s p)) ->
        In (chan2, params2) (requests (watcherTicker s p)) ->
        params1 = params2).
Proof.
  split; [apply getOldestMessageInQueue_again|].
  intros c1 f1 c2 f2 H1 H2.
  apply watcherTicker_from_same_params in H1, H2. congruence.
Qed.

Lemma sendToPurge_appends s msg p :
  config (sendToPurge s msg p) = config p
  /\ sas (sendToPurge s msg p) = sas p
  /\ stats (sendToPurge s msg p) = stats p
  /\ (messageQueue (sendToPurge s msg p) = messageQueue p
      \/ messageQueue (sendToPurge s msg p) =
         messageQueue p ++ [mkEntry (createdAt msg + lifeTimeOffset s) msg]).
Proof.
  unfold sendToPurge, addMessage.
  destruct (findIndex (same_id (id msg)) (messageQueue p) =? -1); simpl; auto.
Qed.

Lemma fetched_appends s messages : forall p,
  NoDup (map mid (messageQueue p)) ->
  NoDup (map mid (messageQueue (fetched s messages p)))
  /\ (exists added,
        messageQueue (fetched s messages p) = messageQueue p ++ added
        /\ forall t, In t added ->
             In (message t) messages
             /\ dueDate t = createdAt (message t) + lifeTimeOffset s)
  /\ (forall msg, In msg messages ->
        In (id msg) (map mid (messageQueue (fetched s messages p))))
  /\ config (fetched s messages p) = config p
  /\ sas (fetched s messages p) = sas p
  /\ stats (fetched s messages p) = stats p.
Proof.
  unfold fetched. induction messages as [|m rest IH]; simpl; intros p D.
  - split; [exact D|]. split; [exists []; split; [now rewrite app_nil_r|intros t []]|].
    split; [intros msg []|auto].
  - destruct (sendToPurge_appends s m p) as (Ec & Es & Et & Eq).
    assert (D1 : NoDup (map mid (messageQueue (sendToPurge s m p))))
      by now apply addMessage_NoDup.
    destruct (IH _ D1) as (G1 & (added & Ea & Ha) & G3 & G4 & G5 & G6).
    split; [exact G1|]. split; [|split].
    + destruct Eq as [Eq|Eq]; rewrite Eq in Ea.
      * exists added. split; [exact Ea|]. intros t Ht.
        destruct (Ha t Ht). split; [now right|assumption].
      * exists (mkEntry (createdAt m + lifeTimeOffset s) m :: added).
        split; [now rewrite Ea, <- app_assoc|].
        intros t [<-|Ht]; [split; [now left|reflexivity]|].
        destruct (Ha t Ht). split; [now right|assumption].
    + intros msg [<-|Hm]; [|now apply G3].
      rewrite Ea, map_app, in_app_iff. left. apply addMessage_queued.
    + rewrite G4, G5, G6. auto.
Qed.

(** X11: when the messages of a fetch are handed to the scheduler, starting
    from a queue with one entry per id, the queue keeps its entries in place
    and gets new ones at its end, each for a fetched message and due at its
    [createdAt] plus the offset; every fetched message is queued afterwards,
    still one entry per id; [sas], counters and configuration are untouched. *)
Theorem fetched_messages_are_queued s messages p :
  NoDup (map mid (messageQueue p)) ->
  NoDup (map mid (messageQueue (fetched s messages p)))
  /\ (exists added,
        messageQueue (fetched s messages p) = messageQueue p ++ added
        /\ forall t, In t added ->
             In (message t) messages
             /\ dueDate t = createdAt (message t) + lifeTimeOffset s)
  /\ (forall msg, In msg messages ->
        In (id msg) (map mid (messageQueue (fetched s messages p))))
  /\ config (fetched s messages p) = config p
  /\ sas (fetched s messages p) = sas p
  /\ stats (fetched s messages p) = stats p.
Proof. apply fetched_appends. Qed.

Lemma fetched_messages_are_queued_witness :
  map mid (messageQueue (fetched (mkStarted [] 60000)
                           [demo_message "m3" 3000; demo_message "m9" 9000;
                            demo_message "m9" 9500]
                           (purger demo_world)))
  = ["m1"; "m2"; "m3"; "m9"]%string
  /\ NoDup (map mid (messageQueue (fetched (mkStarted [] 60000)
                                     [demo_message "m3" 3000; demo_message "m9" 9000;
                                      demo_message "m9" 9500]
                                     (purger demo_world)))).
Proof.
  split; [reflexivity|].
  refine (proj1 (fetched_messages_are_queued (mkStarted [] 60000) _ (purger demo_world) _)).
  simpl. repeat constructor; simpl; intuition discriminate.
Defined.

(** ** The channels of the watcher *)

Lemma Collection_find_name_result value (c : Collection) :
  Collection_find_name value c = JsNull
  \/ exists chan, Collection_find_name value c = JsObj chan
                  /\ In chan (map snd c) /\ name chan = value.
Proof.
  unfold Collection_find_name.
  destruct (find (fun kv => String.eqb (name (snd kv)) value) c) as [kv|] eqn:F; [|now left].
  right. apply find_some in F as [Hk E]. apply String.eqb_eq in E.
  exists (snd kv). split; [reflexivity|]. split; [now apply in_map|exact E].
Qed.

Lemma resolve_by_name channels rest :
  resolve channels (String "#" rest) = JsNull
  \/ exists chan, resolve channels (String "#" rest) = JsObj chan
                  /\ In chan (map snd channels) /\ name chan = rest /\ type chan = "text"%string.
Proof.
  simpl.
  destruct (Collection_find_name_result rest
              (Collection_filter (fun c => String.eqb (type c) "text") channels))
    as [E|(chan & E & Hc & Hn)]; [now left|].
  right. exists chan. split; [exact E|].
  apply in_map_iff in Hc as (kv & <- & Hk).
  apply filter_In in Hk as [Hk Ht]. apply String.eqb_eq in Ht.
  split; [now apply in_map|]. split; [exact Hn|exact Ht].
Qed.

Lemma watcherTicker_from_objects cs : forall p,
  (forall c, In c cs -> exists chan, c = JsObj chan) ->
  threw (watcherTicker_from cs p) = false
  /\ List.length (requests (watcherTicker_from cs p)) = List.length cs.
Proof.
  induction cs as [|c rest IH]; simpl; intros p H; [auto|].
  destruct (H c (or_introl eq_refl)) as (chan & ->).
  destruct (fetchParams p) as [fp p1]. simpl.
  destruct (IH p1) as (T & L); [intros c' Hc'; apply H; now right|].
  split; [exact T|now rewrite L].
Qed.

(** X12: when every configured reference begins with [#], each element of
    [chans] after [start] is a text channel of the client whose name is a
    configured reference without its [#]; the poll tick then runs to its
    end and calls [fetchMessages] once per element of [chans]. *)
Theorem start_with_named_references w p :
  (forall m, In m (map snd (mappings w)) -> exists rest, m = String "#" rest) ->
  (forall c, In c (chans (start w)) ->
     exists chan, c = JsObj chan
                  /\ In chan (map snd (discord_channels w))
                  /\ type chan = "text"%string
                  /\ In (String "#" (name chan)) (map snd (mappings w)))
  /\ threw (watcherTicker (start w) p) = false
  /\ List.length (requests (watcherTicker (start w) p)) = List.length (chans (start w)).
Proof.
  intros H.
  assert (G : forall c, In c (chans (start w)) ->
     exists chan, c = JsObj chan
                  /\ In chan (map snd (discord_channels w))
                  /\ type chan = "text"%string
                  /\ In (String "#" (name chan)) (map snd (mappings w))).
  { intros c Hc. unfold start in Hc. simpl in Hc.
    apply filter_In in Hc as [Hc Hn]. apply in_map_iff in Hc as (m & <- & Hm).
    destruct (H m Hm) as (rest & ->).
    destruct (resolve_by_name (discord_channels w) rest) as [E|(chan & E & Hi & En & Et)].
    - rewrite E in Hn. discriminate.
    - exists chan. rewrite En. auto. }
  split; [exact G|]. apply watcherTicker_from_objects.
  intros c Hc. destruct (G c Hc) as (chan & -> & _). now exists chan.
Qed.

Lemma start_with_named_references_witness :
  threw (watcherTicker
           (start (mkWatcher [("100"%string, mkChannel "100" "general" "text");
                              ("101"%string, mkChannel "101" "voice" "voice")]
                     demo_config
                     [("#general", "#general"); ("#voice", "#voice"); ("#gone", "#gone")]%string))
           (constructor demo_config)) = false.
Proof.
  refine (proj1 (proj2 (start_with_named_references _ _ _))).
  intros m [<-|[<-|[<-|[]]]]; eexists; reflexivity.
Defined.

(** ** The lifetime offset *)

Lemma or_zero_nonneg f : 0 <= field f -> 0 <= or_zero f.
Proof. now rewrite or_zero_field. Qed.

(** X13: with no negative field in [messageLifeTime], the offset is not
    negative, so no message is due before it was created; the offset is 0
    exactly when every field is 0 or unset, as it is without any
    [messageLifeTime], and then a message is due at its creation time. *)
Theorem lifetime_offset_sign arg :
  let lt := match arg with
            | Some lt => lt
            | None => mkLifeTime None None None None
            end in
  0 <= field (days lt) -> 0 <= field (hours lt) ->
  0 <= field (minutes lt) -> 0 <= field (seconds lt) ->
  0 <= getLifeTimeOffset arg
  /\ (getLifeTimeOffset arg = 0 <->
      field (days lt) = 0 /\ field (hours lt) = 0
      /\ field (minutes lt) = 0 /\ field (seconds lt) = 0)
  /\ getLifeTimeOffset None = 0.
Proof.
  intros lt Hd Hh Hm Hs. rewrite (getLifeTimeOffset_sum arg). fold lt.
  split; [lia|]. split; [lia|reflexivity].
Qed.

Lemma lifetime_offset_sign_witness :
  0 <= getLifeTimeOffset (Some (mkLifeTime (Some 2) (Some 3) (Some 1) (Some 1)))
  /\ getLifeTimeOffset (Some (mkLifeTime (Some 2) (Some 3) (Some 1) (Some 1))) = 183661000.
Proof.
  split; [|reflexivity].
  refine (proj1 (lifetime_offset_sign (Some (mkLifeTime (Some 2) (Some 3) (Some 1) (Some 1)))
                   _ _ _ _)); simpl; lia.
Defined.

(** * Properties of the bridge *)

(** ** IRC names *)

Lemma append_cancel (s a b : string) : (s ++ a)%string = (s ++ b)%string -> a = b.
Proof.
  induction s as [|c s IH]; simpl; [tauto|]. intros [= E]. now apply IH.
Qed.

Lemma presence_suffix_cases st :
  (st = "offline" /\ presence_suffix st = "_off")%string
  \/ (st = "idle" /\ presence_suffix st = "_aw")%string
  \/ (st = "dnd" /\ presence_suffix st = "_dnd")%string
  \/ (st <> "offline" /\ st <> "idle" /\ st <> "dnd" /\ presence_suffix st = "")%string.
Proof.
  unfold presence_suffix.
  destruct (String.eqb_spec st "offline"); [now left|].
  destruct (String.eqb_spec st "idle"); [right; now left|].
  destruct (String.eqb_spec st "dnd"); [right; right; now left|].
  right; right; right. auto.
Qed.

(** X14: for one member, a change of presence status to or from [offline],
    [idle] or [dnd] always changes the IRC name, and a change between two
    other statuses never does. *)
Theorem getIrcName_follows_presence gm1 gm2 :
  displayName gm1 = displayName gm2 ->
  username gm1 = username gm2 ->
  status gm1 <> status gm2 ->
  (In (status gm1) ["offline"; "idle"; "dnd"]%string
   \/ In (status gm2) ["offline"; "idle"; "dnd"]%string ->
   getIrcName gm1 <> getIrcName gm2)
  /\ (~ In (status gm1) ["offline"; "idle"; "dnd"]%string ->
      ~ In (status gm2) ["offline"; "idle"; "dnd"]%string ->
      getIrcName gm1 = getIrcName gm2).
Proof.
  intros Ed Eu Ns. unfold getIrcName. rewrite Ed, Eu. split.
  - intros Hin E. apply append_cancel in E.
    destruct (presence_suffix_cases (status gm1)) as [[S1 P1]|[[S1 P1]|[[S1 P1]|(A1 & B1 & C1 & P1)]]],
             (presence_suffix_cases (status gm2)) as [[S2 P2]|[[S2 P2]|[[S2 P2]|(A2 & B2 & C2 & P2)]]];
      rewrite P1, P2 in E; try discriminate; try congruence.
    simpl in Hin. intuition congruence.
  - intros N1 N2. simpl in N1, N2.
    destruct (presence_suffix_cases (status gm1)) as [[S1 P1]|[[S1 P1]|[[S1 P1]|(A1 & B1 & C1 & P1)]]];
      try (exfalso; intuition congruence).
    destruct (presence_suffix_cases (status gm2)) as [[S2 P2]|[[S2 P2]|[[S2 P2]|(A2 & B2 & C2 & P2)]]];
      try (exfalso; intuition congruence).
    now rewrite P1, P2.
Qed.

Lemma getIrcName_follows_presence_witness :
  getIrcName (mkGuildMember "" "ada" "7" false "online")
  <> getIrcName (mkGuildMember "" "ada" "7" false "idle").
Proof.
  refine (proj1 (getIrcName_follows_presence
                   (mkGuildMember "" "ada" "7" false "online")
                   (mkGuildMember "" "ada" "7" false "idle") eq_refl eq_refl _) _).
  - discriminate.
  - right. simpl. auto.
Defined.

(** ** Command messages and nick colours *)

(** X15: a message is a command message exactly when it is not empty and
    its first character, as a one-character string, is an element of
    [commandCharacters]; the empty message never is. *)
Theorem isCommandMessage_first_character commandCharacters message :
  isCommandMessage commandCharacters message = true <->
  exists c rest, message = String c rest /\ In (String c EmptyString) commandCharacters.
Proof.
  unfold isCommandMessage, indexOf. rewrite negb_true_iff, Z.eqb_neq, findIndex_present.
  destruct message as [|c rest]; simpl.
  - split; [intros (x & _ & F); discriminate|intros (c & rest & E & _); discriminate].
  - split.
    + intros (x & Hx & E). apply String.eqb_eq in E. subst x. now exists c, rest.
    + intros (c' & rest' & [= <- <-] & Hc). exists (String c EmptyString).
      split; [exact Hc|apply String.eqb_refl].
Qed.

(** X16: for a nickname that is not empty the colour index lies within
    [NICK_COLORS], so a colour is found for it. *)
Theorem colorIndex_in_range nickname :
  nickname <> EmptyString ->
  exists i color,
    colorIndex nickname = Some i
    /\ 0 <= i < 12
    /\ nth_error NICK_COLORS (Z.to_nat i) = Some color.
Proof.
  intros N. destruct nickname as [|c rest]; [congruence|]. unfold colorIndex.
  set (i := (Z.of_nat (nat_of_ascii c) + Z.of_nat (String.length (String c rest)))
            mod Z.of_nat (List.length NICK_COLORS)).
  assert (B : 0 <= i < 12) by (unfold i; apply Z.mod_pos_bound; reflexivity).
  destruct (nth_error NICK_COLORS (Z.to_nat i)) as [color|] eqn:E.
  - exists i, color. auto.
  - apply nth_error_None in E. simpl in E. lia.
Qed.

Lemma colorIndex_in_range_witness :
  exists i color, colorIndex "ada" = Some i /\ 0 <= i < 12
                  /\ nth_error NICK_COLORS (Z.to_nat i) = Some color.
Proof. apply colorIndex_in_range. discriminate. Defined.

(** ** Properties of plain objects *)

Lemma get_property_cases {A : Type} (object : list (string * A)) key :
  match get_property object key with
  | Own a => exists kv, In kv object /\ fst kv = key /\ snd kv = a
  | Inherited => (forall kv, In kv object -> fst kv <> key) /\ In key Object_prototype_names
  | Missing => (forall kv, In kv object -> fst kv <> key) /\ ~ In key Object_prototype_names
  end.
Proof.
  unfold get_property.
  destruct (find (fun kv => String.eqb (fst kv) key) object) as [kv|] eqn:F.
  - apply find_some in F as [Hk E]. apply String.eqb_eq in E. now exists kv.
  - assert (N : forall kv, In kv object -> fst kv <> key).
    { intros kv Hk E. pose proof (find_none _ _ F kv Hk) as X. simpl in X.
      apply String.eqb_neq in X. contradiction. }
    destruct (existsb (String.eqb key) Object_prototype_names) eqn:X.
    + split; [exact N|]. apply existsb_exists in X as (n & Hn & E).
      apply String.eqb_eq in E. now subst n.
    + split; [exact N|]. intros Hin.
      assert (T : existsb (String.eqb key) Object_prototype_names = true)
        by (apply existsb_exists; exists key; split; [exact Hin|apply String.eqb_refl]).
      congruence.
Qed.

Lemma get_property_missing_prefix {A : Type} (object more : list (string * A)) key :
  get_property (object ++ more) key = Missing -> get_property object key = Missing.
Proof.
  intros M. pose proof (get_property_cases (object ++ more) key) as C. rewrite M in C.
  destruct C as [N P].
  pose proof (get_property_cases object key) as C'.
  destruct (get_property object key) as [a| |]; [|now destruct C'|reflexivity].
  destruct C' as (kv & Hk & Ek & _). exfalso. apply (N kv); [apply in_or_app; now left|exact Ek].
Qed.

(** ** Looking up the discord channel of an IRC channel *)

Lemma Map_get_object m (channels : Collection) chan :
  Map_get m channels = JsObj chan -> In chan (map snd channels).
Proof.
  unfold Map_get.
  destruct (find (fun kv => String.eqb (fst kv) m) channels) as [kv|] eqn:F; [|discriminate].
  intros [= <-]. apply find_some in F as [Hk _]. now apply in_map.
Qed.

Lemma resolve_object channels m chan :
  resolve channels m = JsObj chan -> In chan (map snd channels).
Proof.
  destruct m as [|c rest]; [apply Map_get_object|].
  destruct (Ascii.ascii_dec c "#") as [->|N].
  - destruct (resolve_by_name channels rest) as [E|(chan' & E & Hi & _)]; rewrite E.
    + discriminate.
    + now intros [= <-].
  - rewrite resolve_by_id; [apply Map_get_object|]. intros rest' [= E _]. contradiction.
Qed.

(** X17: [findDiscordChannel] never returns [undefined]: it returns [null],
    or a channel of the client that the lookup of [Watcher.start] finds for
    the non-empty name the inverted mapping gives, or it throws a TypeError,
    which it does exactly when the lowercased IRC channel is no own property
    of the inverted mapping but the name of a property of
    [Object.prototype]. *)
Theorem findDiscordChannel_null_or_channel toLowerCase invertedMapping channels ircChannel :
  findDiscordChannel toLowerCase invertedMapping channels ircChannel <> Return JsUndefined
  /\ (forall chan,
        findDiscordChannel toLowerCase invertedMapping channels ircChannel
        = Return (JsObj chan) ->
        In chan (map snd channels)
        /\ exists discordChannelName,
             get_property invertedMapping (toLowerCase ircChannel) = Own discordChannelName
             /\ discordChannelName <> EmptyString
             /\ resolve channels discordChannelName = JsObj chan)
  /\ (findDiscordChannel toLowerCase invertedMapping channels ircChannel = TypeError <->
      (forall kv, In kv invertedMapping -> fst kv <> toLowerCase ircChannel)
      /\ In (toLowerCase ircChannel) Object_prototype_names)
  /\ (get_property invertedMapping (toLowerCase ircChannel) = Missing ->
      findDiscordChannel toLowerCase invertedMapping channels ircChannel = Return JsNull)
  /\ (forall discordChannelName,
        get_property invertedMapping (toLowerCase ircChannel) = Own discordChannelName ->
        resolve channels discordChannelName = JsUndefined ->
        findDiscordChannel toLowerCase invertedMapping channels ircChannel = Return JsNull).
Proof.
  pose proof (get_property_cases invertedMapping (toLowerCase ircChannel)) as C.
  unfold findDiscordChannel.
  destruct (get_property invertedMapping (toLowerCase ircChannel)) as [m| |].
  - destruct C as (kv & Hk & Ek & _).
    assert (NT : ~ ((forall kv, In kv invertedMapping -> fst kv <> toLowerCase ircChannel)
                    /\ In (toLowerCase ircChannel) Object_prototype_names))
      by (intros [H _]; exact (H kv Hk Ek)).
    destruct (String.eqb_spec m "") as [->|N].
    + split; [discriminate|]. split; [discriminate|].
      split; [split; [discriminate|intros H; now destruct NT]|].
      split; [discriminate|reflexivity].
    + split; [|split; [|split; [|split]]].
      * destruct (resolve channels m); discriminate.
      * intros chan E. destruct (resolve channels m) as [| |c] eqn:R; try discriminate.
        injection E as <-. split; [eapply resolve_object; eauto|].
        exists m. auto.
      * split; [destruct (resolve channels m); discriminate|intros H; now destruct NT].
      * discriminate.
      * intros m' [= <-] R. now rewrite R.
  - split; [discriminate|]. split; [discriminate|].
    split; [split; [intros _; exact C|reflexivity]|].
    split; [discriminate|discriminate].
  - split; [discriminate|]. split; [discriminate|].
    split; [split; [discriminate|intros [_ H]; now destruct C as [_ C]]|].
    split; [reflexivity|discriminate].
Qed.

(** An IRC channel named like a property of [Object.prototype]. *)
Example findDiscordChannel_constructor :
  findDiscordChannel (fun x => x) [("#irc", "#general")]%string
    [("100"%string, mkChannel "100" "general" "text")] "constructor"
  = TypeError
  /\ findDiscordChannel (fun x => x) [("#irc", "#general")]%string
       [("100"%string, mkChannel "100" "general" "text")] "#irc"
     = Return (JsObj (mkChannel "100" "general" "text"))
  /\ findDiscordChannel (fun x => x) [("#irc", "#general")]%string
       [("100"%string, mkChannel "100" "general" "text")] "#other"
     = Return JsNull.
Proof. repeat split. Qed.

(** ** The IRC connections of the members *)

Lemma has_nick_new ircOptions gm n : has_nick n (new_client ircOptions gm) = false.
Proof. reflexivity. Qed.

Lemma connect_member_cases ircOptions max ircClients i gm :
  connect_member ircOptions max (ircClients, i) gm = (ircClients, i)
  \/ (get_property ircClients (user_id gm) = Missing /\ i <= max
      /\ connect_member ircOptions max (ircClients, i) gm
         = (ircClients ++ [(user_id gm, new_client ircOptions gm)], i + 1)).
Proof.
  unfold connect_member.
  destruct (get_property ircClients (user_id gm)); auto.
  destruct (Z.gtb_spec i max); auto.
Qed.

Lemma connect_members_fold ircOptions max gms : forall ircClients i,
  exists added,
    fst (fold_left (connect_member ircOptions max) gms (ircClients, i)) = ircClients ++ added
    /\ i + Z.of_nat (List.length added) <= Z.max i (max + 1)
    /\ (forall kv, In kv added ->
          exists gm, In gm gms
                     /\ kv = (user_id gm, new_client ircOptions gm)
                     /\ get_property ircClients (user_id gm) = Missing).
Proof.
  induction gms as [|gm rest IH]; cbn [fold_left]; intros ircClients i.
  - exists []. rewrite app_nil_r. split; [reflexivity|]. split; [simpl; lia|intros kv []].
  - destruct (connect_member_cases ircOptions max ircClients i gm) as [E|(G & Le & E)];
      rewrite E.
    + destruct (IH ircClients i) as (added & Ea & L & H).
      exists added. split; [exact Ea|]. split; [exact L|].
      intros kv Hk. destruct (H kv Hk) as (g & Hg & Ek & Fk). exists g.
      split; [now right|auto].
    + destruct (IH (ircClients ++ [(user_id gm, new_client ircOptions gm)]) (i + 1))
        as (added & Ea & L & H).
      exists ((user_id gm, new_client ircOptions gm) :: added).
      split; [now rewrite Ea, <- app_assoc|]. split; [simpl List.length; lia|].
      intros kv [<-|Hk]; [exists gm; split; [now left|auto]|].
      destruct (H kv Hk) as (g & Hg & Ek & Fk). exists g. split; [now right|].
      split; [exact Ek|]. eapply get_property_missing_prefix; eauto.
Qed.

(** X18: [createIrcConnections] keeps the clients it finds and appends new
    ones, at most [maxIrcConnections + 1] of them in one call (3 when
    [maxIrcConnections] is unset or 0), each for a member that is not a bot
    and under whose id [ircClients] had no property; the client is made
    with the nick [getIrcName] gives, and with that nick as [userName] and
    the username as [realName] unless [ircOptions] overrides them. Its
    [nick] is not set yet, so the answers of [isHandledClient] are those
    from before the call. *)
Theorem createIrcConnections_limit ircOptions maxIrcConnections members ircClients :
  exists added,
    createIrcConnections ircOptions maxIrcConnections members ircClients = ircClients ++ added
    /\ Z.of_nat (List.length added) <= Z.max 0 (connection_limit maxIrcConnections + 1)
    /\ (forall kv, In kv added ->
          exists gm, In gm members /\ bot gm = false
                     /\ get_property ircClients (user_id gm) = Missing
                     /\ fst kv = user_id gm
                     /\ nick (snd kv) = None
                     /\ nickName (snd kv) = getIrcName gm
                     /\ userName (snd kv) = or_default (opt_userName ircOptions) (getIrcName gm)
                     /\ realName (snd kv) = or_default (opt_realName ircOptions) (username gm))
    /\ (forall nickTab,
          isHandledClient
            (createIrcConnections ircOptions maxIrcConnections members ircClients) nickTab
          = isHandledClient ircClients nickTab).
Proof.
  unfold createIrcConnections.
  destruct (connect_members_fold ircOptions (connection_limit maxIrcConnections)
              (filter (fun gm => negb (bot gm || false)) members) ircClients 0)
    as (added & E & L & H).
  exists added. split; [exact E|]. split; [lia|]. split.
  - intros kv Hk. destruct (H kv Hk) as (gm & Hg & Ek & Fk).
    apply filter_In in Hg as [Hg Hb]. exists gm. split; [exact Hg|].
    split; [now destruct (bot gm)|]. split; [exact Fk|]. rewrite Ek. repeat split.
  - intros nickTab. rewrite E. unfold isHandledClient.
    induction nickTab as [|n rest IH]; [reflexivity|]. cbn [existsb]. rewrite IH. f_equal.
    rewrite existsb_app.
    assert (F : existsb (fun kv => has_nick n (snd kv)) added = false).
    { apply not_true_is_false. intros T. apply existsb_exists in T as (kv & Hk & Hn).
      destruct (H kv Hk) as (gm & _ & Ek & _). rewrite Ek in Hn. discriminate. }
    rewrite F. apply orb_false_r.
Qed.

(** Four members without a client and no configured limit: three clients. *)
Example createIrcConnections_default :
  map fst (createIrcConnections (mkIrcOptions None None) None
             [mkGuildMember "" "ada" "1" false "online";
              mkGuildMember "" "bot" "2" true "online";
              mkGuildMember "Bea" "bea" "3" false "idle";
              mkGuildMember "" "cy" "4" false "dnd";
              mkGuildMember "" "dee" "5" false "offline"] [])
  = ["1"; "3"; "4"]%string.
Proof. reflexivity. Qed.
